(** * The asset optimizer of the personal website: size plans, reference
      rewriting, font subsetting and the optimisation passes

    A shallow embedding of [src/src/js/responsive.js] (the build optimizer
    with the bucketed variant scheme: [ImageSizeCalculator],
    [ImageVariantGenerator], [HtmlSrcsetUpdater], [ImageOptimizer],
    [FontConverter], [CSSFontUpdater], [FontOptimizer]).

    Conventions.
    - JavaScript strings are lists of characters ([list ascii]); string
      literals are written with [str], and [js] writes a literal in which
      every backquote stands for a double quote.
    - Image widths are integers ([Z]); the products [diff * 0.25],
      [diff * 0.5] and [diff * 0.75] are rationals ([Q]): for the integer
      widths an image can have they are exact in binary64, and
      [Math.round] is the floor of its argument plus one half.
    - Regular expressions are values of the type [regex], run by a
      backtracking matcher that tries alternatives in the order of
      ECMAScript (greedy and lazy stars, capture groups, [\b], the [i]
      flag). *)

From Stdlib Require Import ZArith QArith Qround List Ascii String Lia Bool.
From Stdlib Require Import DecimalString.
From stdpp Require Import gmap strings list.

Local Open Scope Z_scope.

(** ** Strings *)

Definition str (s : string) : list ascii := list_ascii_of_string s.

(** The double quote, which a literal cannot hold. *)
Definition dq : ascii := "034"%char.

(** A literal in which every backquote stands for a double quote. *)
Definition js (s : string) : list ascii :=
  List.map (fun c => if Ascii.eqb c "`"%char then dq else c) (str s).

(** [`${n}`] for an integer [n]. *)
Definition numToString (n : Z) : list ascii :=
  str (NilZero.string_of_int (Z.to_int n)).

(** ** CONFIG *)

Module CONFIG.
Definition IMAGE_EXTS : list (list ascii) := [str ".jpg"; str ".jpeg"; str ".png"].
Definition TEXT_EXTS : list (list ascii) := [str ".html"; str ".css"; str ".js"].
Definition FONT_EXTS : list (list ascii) := [str ".ttf"; str ".otf"; str ".woff2"].
Definition SIZE_INCREMENT : Z := 128.
Definition MAX_INCREMENT_SIZE : Z := 1024.
Definition MIN_QUARTER_INCREMENT : Z := 128.
End CONFIG.

(** ** ImageSizeCalculator *)

Inductive sizeType := increment | intermediate | original.

Definition sizeType_eqb (a b : sizeType) : bool :=
  match a, b with
  | increment, increment | intermediate, intermediate | original, original => true
  | _, _ => false
  end.

Record SizeInfo := mkSize { width : Z; folder : list ascii; type : sizeType }.

(** [Math.round]: the nearest integer, halves rounded up. *)
Definition Math_round (x : Q) : Z := Qfloor (x + 0.5).

(** The loop of [addIncrementalSizes]; [fuel] bounds the number of
    iterations. *)
Fixpoint addIncrementalSizes_loop (fuel : nat) (size : Z) (sizes : list SizeInfo)
    (originalWidth : Z) : list SizeInfo :=
  match fuel with
  | O => sizes
  | S fuel' =>
      if (size <=? CONFIG.MAX_INCREMENT_SIZE) && (size <=? originalWidth)
      then addIncrementalSizes_loop fuel' (size + CONFIG.SIZE_INCREMENT)
             (sizes ++ [mkSize size (numToString size) increment]) originalWidth
      else sizes
  end.

(** The loop variable grows by [SIZE_INCREMENT] up to [MAX_INCREMENT_SIZE]:
    nine tests of the condition end it. *)
Definition addIncrementalSizes (sizes : list SizeInfo) (originalWidth : Z) : list SizeInfo :=
  addIncrementalSizes_loop
    (S (Z.to_nat (CONFIG.MAX_INCREMENT_SIZE / CONFIG.SIZE_INCREMENT)))
    CONFIG.SIZE_INCREMENT sizes originalWidth.

Definition addIntermediateSizes (sizes : list SizeInfo) (originalWidth : Z) : list SizeInfo :=
  if originalWidth <=? CONFIG.MAX_INCREMENT_SIZE then sizes
  else
    let diff := originalWidth - CONFIG.MAX_INCREMENT_SIZE in
    let quarter := Math_round (inject_Z diff * 0.25) in
    let half := Math_round (inject_Z diff * 0.5) in
    let threeQuarter := Math_round (inject_Z diff * 0.75) in
    if quarter >=? CONFIG.MIN_QUARTER_INCREMENT
    then sizes ++
         [ mkSize (CONFIG.MAX_INCREMENT_SIZE + quarter) (str "25") intermediate;
           mkSize (CONFIG.MAX_INCREMENT_SIZE + half) (str "50") intermediate;
           mkSize (CONFIG.MAX_INCREMENT_SIZE + threeQuarter) (str "75") intermediate ]
    else sizes ++ [ mkSize (CONFIG.MAX_INCREMENT_SIZE + half) (str "50") intermediate ].

Definition addOriginalSize (sizes : list SizeInfo) (originalWidth : Z) : list SizeInfo :=
  sizes ++ [ mkSize originalWidth (str "original") original ].

Definition calculate (originalWidth : Z) : list SizeInfo :=
  let sizes := [] in
  let sizes := addIncrementalSizes sizes originalWidth in
  let sizes := addIntermediateSizes sizes originalWidth in
  let sizes := addOriginalSize sizes originalWidth in
  sizes.

(** *** The size plan in the words of the specification *)

(** The multiples of 128 from 128 up to [bound]. *)
Definition multiples_of_128_up_to (bound : Z) : list Z :=
  List.map (fun k => 128 * Z.of_nat k) (seq 1 (Z.to_nat (bound / 128))).

Definition spec_increment_phase (originalWidth : Z) : list SizeInfo :=
  List.map (fun w => mkSize w (numToString w) increment)
    (multiples_of_128_up_to (Z.min 1024 originalWidth)).

Definition spec_round (x : Q) : Z := Qfloor (x + 0.5).

Definition spec_intermediate_phase (originalWidth : Z) : list SizeInfo :=
  if 1024 <? originalWidth then
    let diff := originalWidth - 1024 in
    let quarter := spec_round (inject_Z diff * 0.25) in
    if 128 <=? quarter then
      [ mkSize (1024 + spec_round (inject_Z diff * 0.25)) (str "25") intermediate;
        mkSize (1024 + spec_round (inject_Z diff * 0.5)) (str "50") intermediate;
        mkSize (1024 + spec_round (inject_Z diff * 0.75)) (str "75") intermediate ]
    else [ mkSize (1024 + spec_round (inject_Z diff * 0.5)) (str "50") intermediate ]
  else [].

Definition spec_original_phase (originalWidth : Z) : list SizeInfo :=
  [ mkSize originalWidth (str "original") original ].

Definition spec_plan (originalWidth : Z) : list SizeInfo :=
  spec_increment_phase originalWidth ++ spec_intermediate_phase originalWidth
  ++ spec_original_phase originalWidth.

(** Orders on a plan's widths: neighbours are related by [R]. *)
Fixpoint ordered (R : Z -> Z -> Prop) (l : list Z) : Prop :=
  match l with
  | [] => True
  | x :: t => match t with [] => True | y :: _ => R x y end /\ ordered R t
  end.

Definition strictly_increasing : list Z -> Prop := ordered Z.lt.

Definition non_decreasing : list Z -> Prop := ordered Z.le.

Definition widths (plan : list SizeInfo) : list Z := List.map width plan.

Definition originals (plan : list SizeInfo) : list SizeInfo :=
  List.filter (fun s => sizeType_eqb (type s) original) plan.

Definition non_originals (plan : list SizeInfo) : list SizeInfo :=
  List.filter (fun s => negb (sizeType_eqb (type s) original)) plan.

Definition incrEntry (w : Z) : SizeInfo := mkSize w (numToString w) increment.

Definition originalEntry (w : Z) : SizeInfo := mkSize w (str "original") original.

(** ** Regular expressions *)

(** Strings range over the first 256 code units. *)

Definition code (c : ascii) : nat := nat_of_ascii c.

(** [\s] *)
Definition isSpace (c : ascii) : bool :=
  let n := code c in
  ((9 <=? n) && (n <=? 13) || (n =? 32) || (n =? 160))%nat.

(** [\w] *)
Definition isWord (c : ascii) : bool :=
  let n := code c in
  ((48 <=? n) && (n <=? 57) || (65 <=? n) && (n <=? 90)
   || (97 <=? n) && (n <=? 122) || (n =? 95))%nat.

Definition isLineTerminator (c : ascii) : bool :=
  let n := code c in ((n =? 10) || (n =? 13))%nat.

(** Canonicalize of the [i] flag: the upper-case letter of a letter. *)
Definition canonicalize (c : ascii) : ascii :=
  let n := code c in
  if ((97 <=? n) && (n <=? 122)
      || (224 <=? n) && (n <=? 254) && negb (n =? 247))%nat
  then ascii_of_nat (n - 32) else c.

Definition sameChar (icase : bool) (a b : ascii) : bool :=
  if icase then Ascii.eqb (canonicalize a) (canonicalize b) else Ascii.eqb a b.

(** The members of a character class. *)
Inductive citem :=
| CChar (c : ascii)
| CSpace.

Inductive regex :=
| Eps
| Chr (c : ascii)
| Any
| Cls (negated : bool) (items : list citem)
| Seq (r1 r2 : regex)
| Alt (r1 r2 : regex)
| Star (greedy : bool) (r : regex)
| Group (n : nat) (r : regex)
| WordB
| EndOfInput.

(** [r+] and [r+?], a literal, [\s] and a class of characters. *)
Definition Plus (greedy : bool) (r : regex) : regex := Seq r (Star greedy r).

Fixpoint Lit (s : list ascii) : regex :=
  match s with
  | [] => Eps
  | [c] => Chr c
  | c :: t => Seq (Chr c) (Lit t)
  end.

Definition Space : regex := Cls false [CSpace].

Definition OneOf (s : string) : regex := Cls false (List.map CChar (str s)).

Definition NoneOf (s : string) : regex := Cls true (List.map CChar (str s)).

Fixpoint seqs (rs : list regex) : regex :=
  match rs with
  | [] => Eps
  | [r] => r
  | r :: t => Seq r (seqs t)
  end.

Definition citemMatches (icase : bool) (c : ascii) (i : citem) : bool :=
  match i with
  | CChar a => sameChar icase a c
  | CSpace => isSpace c
  end.

Definition classMatches (icase negated : bool) (items : list citem) (c : ascii) : bool :=
  xorb negated (List.existsb (citemMatches icase c) items).

(** The matcher's state: the number of characters consumed since the start
    of the attempt, the character before the current position, the rest of
    the input, and the extent of each capture group. *)
Record mstate := mkState {
  pos : nat;
  prev : option ascii;
  rest : list ascii;
  caps : list (nat * (nat * nat))
}.

Definition step (st : mstate) (c : ascii) (t : list ascii) : mstate :=
  mkState (S (pos st)) (Some c) t (caps st).

Definition orElse {A : Type} (a b : option A) : option A :=
  match a with Some _ => a | None => b end.

Definition isWordOpt (c : option ascii) : bool :=
  match c with Some c => isWord c | None => false end.

(** The loop of a star: [m] matches one iteration, [k] is what remains to be
    matched after the star. A greedy star tries one more iteration first, a
    lazy one tries [k] first; an iteration that consumes nothing is
    rejected. [fuel] bounds the number of iterations. *)
Fixpoint starLoop {A : Type} (m : mstate -> (mstate -> option A) -> option A)
    (greedy : bool) (k : mstate -> option A) (fuel : nat) (st : mstate) : option A :=
  match fuel with
  | O => k st
  | S fuel' =>
      let again :=
        m st (fun st' => if (pos st <? pos st')%nat
                         then starLoop m greedy k fuel' st' else None) in
      if greedy then orElse again (k st) else orElse (k st) again
  end.

(** The backtracking matcher, in continuation-passing style: [k] is what
    remains to be matched after [r]. The alternatives are tried in the order
    of ECMAScript. Each iteration of a star consumes a character, so that
    the length of the input, plus one, is fuel enough. *)
Fixpoint rmatch {A : Type} (icase : bool) (r : regex) (st : mstate)
    (k : mstate -> option A) {struct r} : option A :=
  match r with
  | Eps => k st
  | Chr a =>
      match rest st with
      | c :: t => if sameChar icase a c then k (step st c t) else None
      | [] => None
      end
  | Any =>
      match rest st with
      | c :: t => if isLineTerminator c then None else k (step st c t)
      | [] => None
      end
  | Cls negated items =>
      match rest st with
      | c :: t => if classMatches icase negated items c then k (step st c t) else None
      | [] => None
      end
  | Seq r1 r2 => rmatch icase r1 st (fun st' => rmatch icase r2 st' k)
  | Alt r1 r2 => orElse (rmatch icase r1 st k) (rmatch icase r2 st k)
  | Star greedy r' =>
      starLoop (rmatch icase r') greedy k (S (List.length (rest st))) st
  | Group n r' =>
      rmatch icase r' st
        (fun st' => k (mkState (pos st') (prev st') (rest st')
                         ((n, (pos st, pos st')) :: caps st')))
  | WordB =>
      if xorb (isWordOpt (prev st)) (isWordOpt (List.hd_error (rest st)))
      then k st else None
  | EndOfInput =>
      match rest st with [] => k st | _ :: _ => None end
  end.

(** One attempt at the current position: the length of the match and its
    capture groups. *)
Definition match_at (icase : bool) (r : regex) (prev : option ascii) (s : list ascii)
    : option (nat * list (nat * (nat * nat))) :=
  rmatch icase r (mkState 0 prev s []) (fun st => Some (pos st, caps st)).

Fixpoint lookupCap (n : nat) (caps : list (nat * (nat * nat))) : option (nat * nat) :=
  match caps with
  | [] => None
  | (m, e) :: t => if (n =? m)%nat then Some e else lookupCap n t
  end.

(** The text of the [n]-th group of a match that starts at [s]; a group that
    took no part reads as the empty string. *)
Definition groupText (s : list ascii) (caps : list (nat * (nat * nat))) (n : nat) : list ascii :=
  match lookupCap n caps with
  | Some (b, e) => List.firstn (e - b) (List.skipn b s)
  | None => []
  end.

(** [regex.test(s)]: is there a match at some position? *)
Fixpoint test_from (icase : bool) (r : regex) (prev : option ascii) (s : list ascii) : bool :=
  match match_at icase r prev s with
  | Some _ => true
  | None => match s with [] => false | c :: t => test_from icase r (Some c) t end
  end.

Definition test (icase : bool) (r : regex) (s : list ascii) : bool :=
  test_from icase r None s.

(** The scan of [s.replace(regex, ...)]: the input cut into the characters
    that stay and the matches, each match with the text before it
    (reversed), its groups and the text after it. With the [g] flag every
    match is found, scanning from the left and resuming after each match
    (one character further after an empty one); without it the first match
    only. [skip] counts the characters of the current match still to pass. *)
Inductive piece :=
| Keep (c : ascii)
| Match (rpre matched : list ascii) (groups : nat -> list ascii) (post : list ascii).

Section Scan.
Variable icase : bool.
Variable r : regex.
Variable global : bool.

Fixpoint scan (rpre : list ascii) (s : list ascii) (skip : nat) {struct s} : list piece :=
  match skip with
  | S n =>
      match s with
      | [] => []
      | c :: t => scan (c :: rpre) t n
      end
  | O =>
      match match_at icase r (List.hd_error rpre) s with
      | Some (len, caps) =>
          Match rpre (List.firstn len s) (groupText s caps) (List.skipn len s) ::
          (if global then
             match s with
             | [] => []
             | c :: t =>
                 match len with
                 | O => Keep c :: scan (c :: rpre) t O
                 | S n => scan (c :: rpre) t n
                 end
             end
           else List.map Keep (List.skipn len s))
      | None =>
          match s with
          | [] => []
          | c :: t => Keep c :: scan (c :: rpre) t O
          end
      end
  end.
End Scan.

(** The text that the pieces of a scan stand for, [subst] giving what stands
    for a match. *)
Definition render (subst : list ascii -> list ascii -> (nat -> list ascii) -> list ascii -> list ascii)
    (p : piece) : list ascii :=
  match p with
  | Keep c => [c]
  | Match rpre matched groups post => subst rpre matched groups post
  end.

Definition isMatch (p : piece) : bool :=
  match p with Keep _ => false | Match _ _ _ _ => true end.

(** [s.replace(regex, (match, p1, p2, ...) => ...)] *)
Definition replaceWith (icase global : bool) (r : regex)
    (f : list ascii -> (nat -> list ascii) -> list ascii) (s : list ascii) : list ascii :=
  List.flat_map (render (fun _ m g _ => f m g)) (scan icase r global [] s O).

(** The replacement text of a replacement string, as GetSubstitution reads
    it: [$$] is a dollar, [$&] the match, [$`] and [$'] the text before and
    after the match, [$n] and [$nn] the group of that number when the
    pattern has one; any other dollar stands for itself. [ngroups] is the
    number of groups of the pattern. *)
Definition digitOf (c : ascii) : option nat :=
  let n := code c in
  if ((48 <=? n) && (n <=? 57))%nat then Some (n - 48)%nat else None.

Fixpoint getSubstitution (fuel : nat) (ngroups : nat) (template : list ascii)
    (rpre matched : list ascii) (groups : nat -> list ascii) (post : list ascii)
    : list ascii :=
  match fuel with
  | O => []
  | S fuel' =>
      let continue t := getSubstitution fuel' ngroups t rpre matched groups post in
      match template with
      | [] => []
      | "$"%char :: t =>
          match t with
          | "$"%char :: t' => "$"%char :: continue t'
          | "&"%char :: t' => matched ++ continue t'
          | "`"%char :: t' => List.rev rpre ++ continue t'
          | "'"%char :: t' => post ++ continue t'
          | d1 :: t' =>
              match digitOf d1 with
              | Some n1 =>
                  let one :=
                    if ((1 <=? n1) && (n1 <=? ngroups))%nat
                    then groups n1 ++ continue t'
                    else "$"%char :: continue t in
                  match t' with
                  | d2 :: t'' =>
                      match digitOf d2 with
                      | Some n2 =>
                          let nn := (10 * n1 + n2)%nat in
                          if ((1 <=? nn) && (nn <=? ngroups))%nat
                          then groups nn ++ continue t''
                          else one
                      | None => one
                      end
                  | [] => one
                  end
              | None => "$"%char :: continue t
              end
          | [] => ["$"%char]
          end
      | c :: t => c :: continue t
      end
  end.

(** [s.replace(regex, replacement)] with a replacement string. *)
Definition replaceString (icase global : bool) (r : regex) (ngroups : nat)
    (replacement : list ascii) (s : list ascii) : list ascii :=
  List.flat_map
    (render (fun rpre m g post =>
       getSubstitution (S (List.length replacement)) ngroups replacement rpre m g post))
    (scan icase r global [] s O).

(** *** What a pattern matches

    [den icase r p w f cs]: the pattern [r] matches the word [w] when the
    character before it is [p] and the text after it is [f]; [cs] are the
    extents of the capture groups, counted from the start of [w], the
    latest first. The matcher finds nothing else ([rmatch_sound] below). *)

(** The character before the position reached after the word [w]. *)
Definition lastOr (p : option ascii) (w : list ascii) : option ascii :=
  List.fold_left (fun _ c => Some c) w p.

Definition shiftCaps (d : nat) (cs : list (nat * (nat * nat))) : list (nat * (nat * nat)) :=
  List.map (fun c => (fst c, ((d + fst (snd c))%nat, (d + snd (snd c))%nat))) cs.

Inductive den (icase : bool) :
    regex -> option ascii -> list ascii -> list ascii -> list (nat * (nat * nat)) -> Prop :=
| den_eps p f : den icase Eps p [] f []
| den_chr a c p f : sameChar icase a c = true -> den icase (Chr a) p [c] f []
| den_any c p f : isLineTerminator c = false -> den icase Any p [c] f []
| den_cls negated items c p f :
    classMatches icase negated items c = true -> den icase (Cls negated items) p [c] f []
| den_seq r1 r2 p w1 w2 f c1 c2 :
    den icase r1 p w1 (w2 ++ f) c1 ->
    den icase r2 (lastOr p w1) w2 f c2 ->
    den icase (Seq r1 r2) p (w1 ++ w2) f (shiftCaps (List.length w1) c2 ++ c1)
| den_alt_l r1 r2 p w f cs : den icase r1 p w f cs -> den icase (Alt r1 r2) p w f cs
| den_alt_r r1 r2 p w f cs : den icase r2 p w f cs -> den icase (Alt r1 r2) p w f cs
| den_star_nil greedy r p f : den icase (Star greedy r) p [] f []
| den_star_cons greedy r p w1 w2 f c1 c2 :
    w1 <> [] ->
    den icase r p w1 (w2 ++ f) c1 ->
    den icase (Star greedy r) (lastOr p w1) w2 f c2 ->
    den icase (Star greedy r) p (w1 ++ w2) f (shiftCaps (List.length w1) c2 ++ c1)
| den_group n r p w f cs :
    den icase r p w f cs ->
    den icase (Group n r) p w f ((n, (0%nat, List.length w)) :: cs)
| den_wordb p f :
    xorb (isWordOpt p) (isWordOpt (List.hd_error f)) = true -> den icase WordB p [] f []
| den_end p : den icase EndOfInput p [] [] [].

(** The state after the word [w], with the groups [cs] closed on the way. *)
Definition after (st : mstate) (w f : list ascii) (cs : list (nat * (nat * nat))) : mstate :=
  mkState (pos st + List.length w) (lastOr (prev st) w) f (shiftCaps (pos st) cs ++ caps st).

(** A matcher for [r] that finds only what [r] matches. *)
Definition soundFor {A : Type} (icase : bool) (r : regex)
    (m : mstate -> (mstate -> option A) -> option A) : Prop :=
  forall st k a, m st k = Some a ->
    exists w f cs, rest st = w ++ f /\ den icase r (prev st) w f cs /\
                   k (after st w f cs) = Some a.

(** Two texts that are the same up to the case of letters, when the [i]
    flag is set. *)
Definition sameText (icase : bool) (a b : list ascii) : Prop :=
  List.Forall2 (fun x y => sameChar icase x y = true) a b.

(** A pattern without capture groups. *)
Fixpoint groupFree (r : regex) : bool :=
  match r with
  | Seq r1 r2 | Alt r1 r2 => groupFree r1 && groupFree r2
  | Star _ r' => groupFree r'
  | Group _ _ => false
  | _ => true
  end.

(** ** String methods *)

Definition eqs (a b : list ascii) : bool :=
  if List.list_eq_dec Ascii.ascii_dec a b then true else false.

Fixpoint startsWith (p s : list ascii) : bool :=
  match p with
  | [] => true
  | a :: p' =>
      match s with
      | [] => false
      | c :: s' => Ascii.eqb a c && startsWith p' s'
      end
  end.

Definition endsWith (p s : list ascii) : bool := startsWith (List.rev p) (List.rev s).

(** [s.includes(p)] *)
Fixpoint includes (s p : list ascii) : bool :=
  startsWith p s || match s with [] => false | _ :: t => includes t p end.

(** [s.replaceAll(searchValue, replacement)] for a search string: the
    occurrences are found from the left, each search resuming after the last
    occurrence (one character further when the search string is empty), and
    each is replaced by the text the replacement string stands for. *)
Section ReplaceAll.
Variable searchValue replacement : list ascii.

Fixpoint replaceAll_from (rpre : list ascii) (s : list ascii) (skip : nat)
    {struct s} : list ascii :=
  match skip with
  | S n =>
      match s with
      | [] => []
      | c :: t => replaceAll_from (c :: rpre) t n
      end
  | O =>
      if startsWith searchValue s then
        getSubstitution (S (List.length replacement)) 0 replacement rpre searchValue
          (fun _ => []) (List.skipn (List.length searchValue) s) ++
        match s with
        | [] => []
        | c :: t =>
            match List.length searchValue with
            | O => c :: replaceAll_from (c :: rpre) t O
            | S n => replaceAll_from (c :: rpre) t n
            end
        end
      else
        match s with
        | [] => []
        | c :: t => c :: replaceAll_from (c :: rpre) t O
        end
  end.
End ReplaceAll.

Definition replaceAll (s searchValue replacement : list ascii) : list ascii :=
  replaceAll_from searchValue replacement [] s O.

(** [parts.join(sep)] *)
Fixpoint joinWith (sep : list ascii) (parts : list (list ascii)) : list ascii :=
  match parts with
  | [] => []
  | [p] => p
  | p :: t => p ++ sep ++ joinWith sep t
  end.

(** [s.split(sep)] for a separator of one character. *)
Fixpoint splitOn (sep : ascii) (s : list ascii) : list (list ascii) :=
  match s with
  | [] => [[]]
  | c :: t =>
      if Ascii.eqb c sep then [] :: splitOn sep t
      else match splitOn sep t with
           | p :: ps => (c :: p) :: ps
           | [] => [[c]]
           end
  end.

(** ** The [path] module (POSIX)

    Paths are those that the directory scan builds from the build directory:
    relative, with segments separated by slashes. *)
Module path.
Definition sep : ascii := "/"%char.

Definition isSep (c : ascii) : bool := Ascii.eqb c sep.

Fixpoint dropWhile (f : ascii -> bool) (s : list ascii) : list ascii :=
  match s with
  | [] => []
  | c :: t => if f c then dropWhile f t else s
  end.

Fixpoint takeWhile (f : ascii -> bool) (s : list ascii) : list ascii :=
  match s with
  | [] => []
  | c :: t => if f c then c :: takeWhile f t else []
  end.

(** The segments of a path, without the empty ones and the dots; a [..]
    takes back the segment before it. *)
Fixpoint normalizeParts (acc : list (list ascii)) (ps : list (list ascii))
    : list (list ascii) :=
  match ps with
  | [] => List.rev acc
  | p :: t =>
      if eqs p [] || eqs p (str ".") then normalizeParts acc t
      else if eqs p (str "..") then
        match acc with
        | q :: acc' => if eqs q (str "..") then normalizeParts (p :: acc) t
                       else normalizeParts acc' t
        | [] => normalizeParts [p] t
        end
      else normalizeParts (p :: acc) t
  end.

Definition parts (p : list ascii) : list (list ascii) :=
  normalizeParts [] (splitOn sep p).

Definition isAbsolute (p : list ascii) : bool := startsWith [sep] p.

(** [path.join(a, b, ...)]: the arguments joined by slashes, normalized. *)
Definition join (ps : list (list ascii)) : list ascii :=
  let joined := joinWith [sep] (List.filter (fun p => negb (eqs p [])) ps) in
  let body := joinWith [sep] (parts joined) in
  let body := if isAbsolute joined then sep :: body else body in
  if eqs body [] then str "."
  else if endsWith [sep] joined && negb (endsWith [sep] body) then body ++ [sep]
  else body.

(** The last segment of a path, trailing slashes apart, reversed. *)
Definition rbase (p : list ascii) : list ascii :=
  takeWhile (fun c => negb (isSep c)) (dropWhile isSep (List.rev p)).

(** [path.dirname(p)] *)
Definition dirname (p : list ascii) : list ascii :=
  let r := dropWhile isSep (List.rev p) in
  let rdir := dropWhile (fun c => negb (isSep c)) r in
  match rdir with
  | [] => if isAbsolute p then [sep] else str "."
  | _ :: rd =>
      match rd with
      | [] => [sep]
      | _ => if eqs rd [sep] then [sep; sep] else List.rev rd
      end
  end.

(** [path.extname(p)]: from the last dot of the last segment on; empty
    when there is none or when the segment starts with its only dot. *)
Definition extname (p : list ascii) : list ascii :=
  let rb := rbase p in
  let rext := takeWhile (fun c => negb (Ascii.eqb c "."%char)) rb in
  let rstem := List.skipn (List.length rext) rb in
  match rstem with
  | [] => []
  | _ :: rstem' =>
      match rstem' with
      | [] => []
      | _ => if eqs (List.rev rb) (str "..") then [] else "."%char :: List.rev rext
      end
  end.

(** [path.basename(p, ext)] *)
Definition basename (p ext : list ascii) : list ascii :=
  let b := List.rev (rbase p) in
  if eqs ext [] then b
  else if eqs ext p then []
  else if endsWith ext b && negb (eqs ext b)
       then List.firstn (List.length b - List.length ext) b
       else b.

Fixpoint dropCommon (a b : list (list ascii)) : list (list ascii) * list (list ascii) :=
  match a, b with
  | x :: a', y :: b' => if eqs x y then dropCommon a' b' else (a, b)
  | _, _ => (a, b)
  end.

(** [path.relative(from, to)]: one [..] for each segment of [from] below
    the common directory, then what remains of [to]. *)
Definition relative (from to : list ascii) : list ascii :=
  let (f, t) := dropCommon (parts from) (parts to) in
  joinWith [sep] (List.map (fun _ => str "..") f ++ t).
End path.

(** ** The build directory and the effects on it *)

(** What a call does to the build directory, in order. *)
Inductive event :=
| EvWrite (p : list ascii)
| EvUnlink (p : list ascii).

(** The files of the build directory with their contents, in the order in
    which the directory scan meets them, and the writes and deletions so
    far. *)
Record fsState := mkFs {
  files : list (list ascii * list ascii);
  trace : list event
}.

(** A call returns, throws, or leaves the model: the pattern built by
    [createPatterns] is modelled for asset names without characters of the
    regular expression syntax other than the dot. *)
Inductive outcome (A : Type) :=
| Returns (a : A) (st : fsState)
| Throws (msg : list ascii) (st : fsState)
| Unmodelled.

Arguments Returns {A} a st.
Arguments Throws {A} msg st.
Arguments Unmodelled {A}.

Definition M (A : Type) : Type := fsState -> outcome A.

Definition ret {A : Type} (a : A) : M A := fun st => Returns a st.

Definition throw {A : Type} (msg : list ascii) : M A := fun st => Throws msg st.

Definition unmodelled {A : Type} : M A := fun _ => Unmodelled.

Definition bind {A B : Type} (m : M A) (f : A -> M B) : M B :=
  fun st =>
    match m st with
    | Returns a st' => f a st'
    | Throws msg st' => Throws msg st'
    | Unmodelled => Unmodelled
    end.

(** [try { m } catch (error) { handler }] *)
Definition tryCatch {A : Type} (m : M A) (handler : list ascii -> M A) : M A :=
  fun st =>
    match m st with
    | Returns a st' => Returns a st'
    | Throws msg st' => handler msg st'
    | Unmodelled => Unmodelled
    end.

Declare Scope js_scope.
Delimit Scope js_scope with js.
Notation "x <- m ;; k" := (bind m (fun x => k))
  (at level 100, m at next level, right associativity) : js_scope.
Notation "m ;;; k" := (bind m (fun _ => k))
  (at level 100, right associativity) : js_scope.
Local Open Scope js_scope.

(** [for (const x of xs) body(x)] *)
Fixpoint forEach {A : Type} (xs : list A) (body : A -> M unit) : M unit :=
  match xs with
  | [] => ret tt
  | x :: t => body x ;;; forEach t body
  end.

Module fs.
Fixpoint lookup (p : list ascii) (fl : list (list ascii * list ascii)) : option (list ascii) :=
  match fl with
  | [] => None
  | (q, c) :: t => if eqs p q then Some c else lookup p t
  end.

Fixpoint update (p c : list ascii) (fl : list (list ascii * list ascii))
    : list (list ascii * list ascii) :=
  match fl with
  | [] => [(p, c)]
  | (q, d) :: t => if eqs p q then (q, c) :: t else (q, d) :: update p c t
  end.

Definition remove (p : list ascii) (fl : list (list ascii * list ascii))
    : list (list ascii * list ascii) :=
  List.filter (fun e => negb (eqs p (fst e))) fl.

Definition existsSync (p : list ascii) (st : fsState) : bool :=
  match lookup p (files st) with Some _ => true | None => false end.

Definition readFileSync (p : list ascii) : M (list ascii) :=
  fun st =>
    match lookup p (files st) with
    | Some c => Returns c st
    | None => Throws (str "ENOENT: no such file or directory") st
    end.

Definition writeFileSync (p c : list ascii) : M unit :=
  fun st => Returns tt (mkFs (update p c (files st)) (trace st ++ [EvWrite p])).

Definition unlinkSync (p : list ascii) : M unit :=
  fun st =>
    match lookup p (files st) with
    | Some _ => Returns tt (mkFs (remove p (files st)) (trace st ++ [EvUnlink p]))
    | None => Throws (str "ENOENT: no such file or directory") st
    end.
End fs.

(** ** FileSystem and PathUtils *)

Definition toLowerCase (s : list ascii) : list ascii :=
  List.map (fun c => let n := code c in
                     if ((65 <=? n) && (n <=? 90))%nat then ascii_of_nat (n + 32) else c) s.

Module FileSystem.
Definition shouldSkipEntry (name : list ascii) : bool :=
  startsWith (str ".") name || eqs name (str "node_modules").

Definition hasValidExtension (filename : list ascii) (extensions : list (list ascii)) : bool :=
  List.existsb (eqs (toLowerCase (path.extname filename))) extensions.

(** The entries met below [dir] on the way to the file [p], the file's
    name last; [None] when [p] is not below [dir]. *)
Fixpoint below (dir p : list (list ascii)) : option (list (list ascii)) :=
  match dir with
  | [] => match p with [] => None | _ => Some p end
  | d :: dir' =>
      match p with
      | [] => None
      | x :: p' => if eqs d x then below dir' p' else None
      end
  end.

(** The recursive scan of [findFiles]: the files below [dir] that no
    skipped entry hides and whose extension is one of [extensions], in the
    order of the scan. *)
Definition findFiles (dir : list ascii) (extensions : list (list ascii)) : M (list (list ascii)) :=
  fun st =>
    Returns
      (List.filter
         (fun p =>
            match below (path.parts dir) (path.parts p) with
            | Some entries =>
                negb (List.existsb shouldSkipEntry entries)
                && hasValidExtension (List.last entries []) extensions
            | None => false
            end)
         (List.map fst (files st)))
      st.

(** Directories hold no content of their own in the model. *)
Definition ensureDirectory (dirPath : list ascii) : M unit := ret tt.

Definition normalizePath (filePath : list ascii) : list ascii :=
  replaceString false true (Chr "\"%char) 0 (str "/") filePath.
End FileSystem.

Module PathUtils.
Definition getRelativePath (from to : list ascii) : list ascii :=
  FileSystem.normalizePath (path.relative from to).

Definition getBaseNameWithoutExt (filePath : list ascii) : list ascii :=
  path.basename filePath (path.extname filePath).

(** [/\.[^.]+$/] *)
Definition re_extension : regex :=
  seqs [Chr "."%char; Plus true (NoneOf "."); EndOfInput].

Definition changeExtension (filePath newExt : list ascii) : list ascii :=
  replaceString false false re_extension 0 newExt filePath.
End PathUtils.

(** ** FileProcessor *)

Module FileProcessor.
Definition findFiles (buildDir : list ascii) (extensions : list (list ascii)) : M (list (list ascii)) :=
  FileSystem.findFiles buildDir extensions.

(** The text of a file after [updateSingleFileReferences], and whether the
    file is written. *)
Definition updatedReferences (content oldRef newRef : list ascii) : list ascii * bool :=
  if includes content oldRef then (replaceAll content oldRef newRef, true)
  else (content, false).

Definition updateSingleFileReferences (file oldRef newRef : list ascii) : M unit :=
  content <- fs.readFileSync file ;;
  let (updated, written) := updatedReferences content oldRef newRef in
  if written then fs.writeFileSync file updated else ret tt.

Definition updateFileReferences (buildDir oldPath newPath : list ascii) : M unit :=
  textFiles <- findFiles buildDir CONFIG.TEXT_EXTS ;;
  let oldRef := PathUtils.getRelativePath buildDir oldPath in
  let newRef := PathUtils.getRelativePath buildDir newPath in
  forEach textFiles (fun file => updateSingleFileReferences file oldRef newRef).
End FileProcessor.

(** ** The image codec (sharp), an external collaborator *)

(** [metadata]: the width read from the bytes of an image ([None] when the
    promise rejects, [Some None] when the metadata has no width);
    [resizeAvif]: the bytes of the image resized to a width and encoded
    ([None] when the promise rejects). *)
Class Sharp := {
  metadata : list ascii -> option (option Z);
  resizeAvif : list ascii -> Z -> option (list ascii)
}.

(** ** ImageVariantGenerator *)

Record GeneratedImage := mkImage {
  img_path : list ascii;
  img_width : Z;
  img_folder : list ascii;
  img_type : sizeType
}.

Definition findOriginal (generatedImages : list GeneratedImage) : option GeneratedImage :=
  List.find (fun img => sizeType_eqb (img_type img) original) generatedImages.

Module ImageVariantGenerator.
Section Generator.
Context `{Sharp}.
Variable imagePath : list ascii.

Definition baseName : list ascii := PathUtils.getBaseNameWithoutExt imagePath.
Definition dirName : list ascii := path.dirname imagePath.

Definition fileName (sizeInfo : SizeInfo) : list ascii :=
  match type sizeInfo with
  | original => baseName ++ str ".avif"
  | _ => baseName ++ str "-" ++ numToString (width sizeInfo) ++ str "w.avif"
  end.

Definition outputPathOf (sizeInfo : SizeInfo) : list ascii :=
  path.join [path.join [dirName; folder sizeInfo]; fileName sizeInfo].

Definition generateSingleVariant (sizeInfo : SizeInfo) : M (list ascii) :=
  let folderPath := path.join [dirName; folder sizeInfo] in
  FileSystem.ensureDirectory folderPath ;;;
  let outputPath := path.join [folderPath; fileName sizeInfo] in
  bytes <- fs.readFileSync imagePath ;;
  match resizeAvif bytes (width sizeInfo) with
  | Some encoded => fs.writeFileSync outputPath encoded ;;; ret outputPath
  | None => throw (str "sharp: the image could not be encoded")
  end.

Fixpoint generateLoop (sizes : list SizeInfo) (generatedImages : list GeneratedImage)
    : M (list GeneratedImage) :=
  match sizes with
  | [] => ret generatedImages
  | sizeInfo :: rest =>
      outputPath <- generateSingleVariant sizeInfo ;;
      generateLoop rest
        (generatedImages ++
         [mkImage outputPath (width sizeInfo) (folder sizeInfo) (type sizeInfo)])
  end.

(** [generate] returns the generated images and [originalImage]. *)
Definition generate : M (list GeneratedImage * option GeneratedImage) :=
  bytes <- fs.readFileSync imagePath ;;
  match metadata bytes with
  | None => throw (str "sharp: the input is not an image")
  | Some w =>
      match w with
      | Some width =>
          if width =? 0 then throw (str "Could not get width for image: " ++ imagePath)
          else
            let sizes := calculate width in
            generatedImages <- generateLoop sizes [] ;;
            ret (generatedImages, findOriginal generatedImages)
      | None => throw (str "Could not get width for image: " ++ imagePath)
      end
  end.
End Generator.
End ImageVariantGenerator.

(** ** HtmlSrcsetUpdater *)

Module HtmlSrcsetUpdater.
(** [/\/[^\/]*\/[^\/]*$/] *)
Definition re_lastTwoSegments : regex :=
  seqs [Chr "/"%char; Star true (NoneOf "/"); Chr "/"%char; Star true (NoneOf "/");
        EndOfInput].

Definition createBaseReference (buildDir originalImagePath baseName : list ascii) : list ascii :=
  let originalRef := PathUtils.getRelativePath buildDir originalImagePath in
  let stripped :=
    replaceString false false PathUtils.re_extension 0 []
      (replaceString false false re_lastTwoSegments 0 [] originalRef) in
  FileSystem.normalizePath (if eqs stripped [] then baseName else stripped).

Definition generateSrcsetValues (file : list ascii) (generatedImages : list GeneratedImage)
    : list ascii :=
  joinWith (str ", ")
    (List.map
       (fun img =>
          let relativePath :=
            FileSystem.normalizePath (path.relative (path.dirname file) (img_path img)) in
          relativePath ++ str " " ++ numToString (img_width img) ++ str "w")
       generatedImages).

(** The characters of the syntax of regular expressions. *)
Definition isSyntaxCharacter (c : ascii) : bool :=
  List.existsb (Ascii.eqb c) (str "\^$.*+?()[]{}|").

(** A name spliced into the source of a pattern: each character stands for
    itself and a dot for any character; names with other characters of the
    syntax are outside the model. *)
Definition spliced (name : list ascii) : option regex :=
  if List.existsb (fun c => isSyntaxCharacter c && negb (Ascii.eqb c "."%char)) name
  then None
  else Some (seqs (List.map (fun c => if Ascii.eqb c "."%char then Any else Chr c) name)).

Definition quote : regex := Cls false [CChar dq; CChar "'"%char].
Definition notQuote : regex := Cls true [CChar dq; CChar "'"%char].

(** The pattern [<img\b([^>]*?)src=Q([^Q]*?)NAME\EXT Q([^>]*?)>] with the
    flags [gi], where [Q] is the class of the double and the single quote
    and [[^Q]] its complement. *)
Definition imgPattern (name : regex) (ext : list ascii) : regex :=
  seqs [Lit (str "<img"); WordB; Group 1 (Star false (NoneOf ">")); Lit (str "src=");
        quote; Group 2 (Star false notQuote); name; Lit ext; quote;
        Group 3 (Star false (NoneOf ">")); Chr ">"%char].

Definition createPatterns (baseName baseRef ext : list ascii) : option (list regex) :=
  match spliced baseName, spliced baseRef with
  | Some n, Some r => Some [imgPattern n ext; imgPattern r ext]
  | _, _ => None
  end.

(** [/\ssrcset\s*=/] *)
Definition re_hasSrcset : regex :=
  seqs [Space; Lit (str "srcset"); Star true Space; Chr "="%char].

(** [/\ssrcset\s*=\s*Q[^Q]*Q/i] *)
Definition re_srcsetAttribute : regex :=
  seqs [Space; Lit (str "srcset"); Star true Space; Chr "="%char; Star true Space;
        quote; Star true notQuote; quote].

(** The callback of [updateContentWithPattern]: what stands for the
    matched element. *)
Definition rewriteElement (srcValue srcsetValues : list ascii)
    (matched : list ascii) (groups : nat -> list ascii) : list ascii :=
  let before := groups 1%nat in
  let after := groups 3%nat in
  if test false re_hasSrcset matched then
    replaceString true false re_srcsetAttribute 0
      (str " srcset=" ++ [dq] ++ srcsetValues ++ [dq]) matched
  else
    str "<img" ++ before ++ str "src=" ++ [dq] ++ srcValue ++ [dq]
    ++ str " srcset=" ++ [dq] ++ srcsetValues ++ [dq] ++ after ++ str ">".

(** [updateContentWithPattern]: the callback runs, and sets [updated], at
    each match of the pattern; it throws ([None]) when no generated image
    is of the type [original]. Without a match the content stays. *)
Definition updateContentWithPattern (content : list ascii) (regex : regex)
    (srcsetValues file : list ascii) (generatedImages : list GeneratedImage)
    : option (list ascii * bool) :=
  let updated := List.existsb isMatch (scan true regex true [] content O) in
  match findOriginal generatedImages with
  | Some originalImg =>
      let srcValue :=
        FileSystem.normalizePath
          (path.relative (path.dirname file) (img_path originalImg)) in
      Some (replaceWith true true regex (rewriteElement srcValue srcsetValues) content,
            updated)
  | None => if updated then None else Some (content, false)
  end.

Definition originalExts : list (list ascii) :=
  [str ".jpg"; str ".jpeg"; str ".png"; str ".webp"; str ".avif"].

Fixpoint applyPatterns (patterns : list regex) (content : list ascii) (updated : bool)
    (srcsetValues file : list ascii) (generatedImages : list GeneratedImage)
    : option (list ascii * bool) :=
  match patterns with
  | [] => Some (content, updated)
  | regex :: rest =>
      match updateContentWithPattern content regex srcsetValues file generatedImages with
      | Some (content', updated') =>
          applyPatterns rest content' (updated || updated') srcsetValues file generatedImages
      | None => None
      end
  end.

(** The patterns of all the extensions, in the order of the two loops;
    [None] when a name is outside the model. *)
Fixpoint allPatterns (baseName baseRef : list ascii) (exts : list (list ascii))
    : option (list regex) :=
  match exts with
  | [] => Some []
  | ext :: rest =>
      match createPatterns baseName baseRef ext, allPatterns baseName baseRef rest with
      | Some ps, Some qs => Some (ps ++ qs)
      | _, _ => None
      end
  end.

(** The content of a file after [updateSingleFile] and whether the file is
    written; the inner [None] is the [TypeError] of the callback. *)
Definition updatedContent (file baseName baseRef : list ascii)
    (generatedImages : list GeneratedImage) (content : list ascii)
    : option (option (list ascii * bool)) :=
  let srcsetValues := generateSrcsetValues file generatedImages in
  match allPatterns baseName baseRef originalExts with
  | Some patterns =>
      Some (applyPatterns patterns content false srcsetValues file generatedImages)
  | None => None
  end.

Definition updateSingleFile (file baseName baseRef : list ascii)
    (generatedImages : list GeneratedImage) : M unit :=
  content <- fs.readFileSync file ;;
  match updatedContent file baseName baseRef generatedImages content with
  | Some (Some (content', updated)) =>
      if updated then fs.writeFileSync file content' else ret tt
  | Some None => throw (str "TypeError: Cannot read properties of undefined")
  | None => unmodelled
  end.

Definition updateAll (buildDir originalImagePath : list ascii)
    (generatedImages : list GeneratedImage) : M unit :=
  htmlFiles <- FileSystem.findFiles buildDir [str ".html"] ;;
  let baseName := PathUtils.getBaseNameWithoutExt originalImagePath in
  let baseRef := createBaseReference buildDir originalImagePath baseName in
  forEach htmlFiles (fun file => updateSingleFile file baseName baseRef generatedImages).
End HtmlSrcsetUpdater.

(** ** The passes *)

(** The loop of a pass: each asset in turn inside [try]/[catch]; what a
    processed asset yields is pushed onto [processedFiles], a failure is
    logged and the loop goes on. *)
Fixpoint passLoop {R : Type} (process : list ascii -> M R) (collect : R -> list (list ascii))
    (assets : list (list ascii)) (processedFiles : list (list ascii))
    : M (list (list ascii)) :=
  match assets with
  | [] => ret processedFiles
  | assetPath :: rest =>
      processedFiles' <-
        tryCatch (result <- process assetPath ;; ret (processedFiles ++ collect result))
                 (fun _ => ret processedFiles) ;;
      passLoop process collect rest processedFiles'
  end.

Module ImageOptimizer.
Section Optimizer.
Context `{Sharp}.
Variable buildDir : list ascii.

Definition processImage (imagePath : list ascii) : M (list (list ascii)) :=
  r <- ImageVariantGenerator.generate imagePath ;;
  let (generatedImages, originalImage) := r in
  fs.unlinkSync imagePath ;;;
  match originalImage with
  | Some originalImage =>
      HtmlSrcsetUpdater.updateAll buildDir (img_path originalImage) generatedImages ;;;
      ret (List.map img_path generatedImages)
  | None => throw (str "TypeError: Cannot read properties of undefined")
  end.

Definition optimize : M (list (list ascii)) :=
  images <- FileProcessor.findFiles buildDir CONFIG.IMAGE_EXTS ;;
  match images with
  | [] => ret []
  | _ => passLoop processImage (fun result => result) images []
  end.
End Optimizer.
End ImageOptimizer.

(** ** The font library (fonteditor-core), an external collaborator *)

(** Modelled from the spec: the glyph type of the font collaborator is not
    part of the sources. A glyph has a code point, or none, and a name. *)
Record Glyph := mkGlyph {
  unicode : option Z;
  name : list ascii
}.

(** [woff2Ready]: does the initialisation resolve? [fontCreate]: the glyphs
    of a font read from its bytes with a type hint ([None] when the library
    rejects the input); [fontWrite]: the bytes of the compressed font with a
    glyph table and a code-point table ([None] when the library fails). *)
Class FontLibrary := {
  woff2Ready : bool;
  fontCreate : list ascii -> list ascii -> option (list Glyph);
  fontWrite : list Glyph -> gmap Z (list ascii) -> option (list ascii)
}.

Module FontConverter.
Definition allowedRanges : list (Z * Z) :=
  [ (0x0000, 0x007F);   (* Basic Latin *)
    (0x0080, 0x00FF);   (* Latin-1 Supplement *)
    (0x0100, 0x024F);   (* Latin Extended-A & B *)
    (0x1E00, 0x1EFF);   (* Latin Extended Additional *)
    (0x0300, 0x036F) ]. (* Combining Diacritical Marks *)

Definition allowedSingles : list Z := [0x20AB]. (* Vietnamese dong sign *)

(** The truth value of [glyph.unicode]: a number other than zero. *)
Definition truthy (u : option Z) : bool :=
  match u with
  | Some c => negb (c =? 0)
  | None => false
  end.

(** The [filter] passed to [font.find]. *)
Definition filter (glyph : Glyph) : bool :=
  if negb (truthy (unicode glyph)) then false
  else
    match unicode glyph with
    | Some code =>
        List.existsb (fun '(start, end_) => (code >=? start) && (code <=? end_)) allowedRanges
        || List.existsb (Z.eqb code) allowedSingles
    | None => false
    end.

(** [font.find({ filter })] *)
Definition keptGlyphs (glyphs : list Glyph) : list Glyph := List.filter filter glyphs.

(** [keptGlyphs.reduce((map, glyph) => ..., {})] *)
Definition cmapOf (kept : list Glyph) : gmap Z (list ascii) :=
  List.fold_left
    (fun map glyph =>
       match unicode glyph with
       | Some code => if truthy (unicode glyph) then <[code := name glyph]> map else map
       | None => map
       end)
    kept ∅.

Section Converter.
Context `{FontLibrary}.

Definition convertToWoff2 (fontPath : list ascii) : M (list ascii) :=
  let ext := toLowerCase (path.extname fontPath) in
  if eqs ext (str ".woff2") then ret fontPath
  else
    let outPath := PathUtils.changeExtension fontPath (str ".woff2") in
    if negb woff2Ready then throw (str "woff2.init() failed")
    else
      buffer <- fs.readFileSync fontPath ;;
      let typeHint := if eqs ext (str ".otf") then str "otf" else str "ttf" in
      let failed := str "Failed to process font " ++ path.basename fontPath [] in
      match fontCreate buffer typeHint with
      | Some glyphs =>
          let kept := keptGlyphs glyphs in
          match fontWrite kept (cmapOf kept) with
          | Some uint8 => fs.writeFileSync outPath uint8 ;;; ret outPath
          | None => throw failed
          end
      | None => throw failed
      end.
End Converter.
End FontConverter.

(** ** CSSFontUpdater *)

Module CSSFontUpdater.
Import HtmlSrcsetUpdater.

(** [/format\s*\(\s*Q(?:truetype|opentype|ttf|otf)Q\s*\)/gi], [Q] the
    class of the double and the single quote. *)
Definition re_format : regex :=
  seqs [Lit (str "format"); Star true Space; Chr "("%char; Star true Space; quote;
        Alt (Lit (str "truetype"))
          (Alt (Lit (str "opentype")) (Alt (Lit (str "ttf")) (Lit (str "otf"))));
        quote; Star true Space; Chr ")"%char].

(** [format(Dwoff2D)], [D] the double quote. *)
Definition formatWoff2 : list ascii := str "format(" ++ [dq] ++ str "woff2" ++ [dq] ++ str ")".

(** [/@font-face\s*\{[^}]*url\s*\([^)]*Q\s*G\s*Q\)[^}]*\}/gi], [G] the
    group of a greedy star of [[^Q]]. *)
Definition fontFaceRegex : regex :=
  seqs [Lit (str "@font-face"); Star true Space; Chr "{"%char; Star true (NoneOf "}");
        Lit (str "url"); Star true Space; Chr "("%char; Star true (NoneOf ")");
        Cls false [CChar "'"%char; CChar dq]; Star true Space;
        Group 1 (Star true (Cls true [CChar "'"%char; CChar dq])); Star true Space;
        Cls false [CChar "'"%char; CChar dq]; Chr ")"%char; Star true (NoneOf "}");
        Chr "}"%char].

(** [/(url\s*\([^)]+\))\s*;/i] *)
Definition re_urlDeclaration : regex :=
  seqs [Group 1 (seqs [Lit (str "url"); Star true Space; Chr "("%char;
                       Plus true (NoneOf ")"); Chr ")"%char]);
        Star true Space; Chr ";"%char].

(** Does the callback on a font-face block add the format hint? *)
Definition lacksHint (matched urlPath : list ascii) : bool :=
  includes urlPath (str ".woff2") && negb (includes matched (str "format(")).

(** The callback on a font-face block. *)
Definition hintBlock (matched : list ascii) (groups : nat -> list ascii) : list ascii :=
  let urlPath := groups 1%nat in
  if lacksHint matched urlPath then
    replaceString true false re_urlDeclaration 1 (str "$1 " ++ formatWoff2 ++ str ";") matched
  else matched.

Definition updateFontFormats (content : list ascii) : list ascii * bool :=
  let beforeReplace := content in
  let content := replaceString true true re_format 0 formatWoff2 content in
  let updated := negb (eqs content beforeReplace) in
  let hinted :=
    List.existsb
      (fun p => match p with
                | Match _ matched groups _ => lacksHint matched (groups 1%nat)
                | Keep _ => false
                end)
      (scan true fontFaceRegex true [] content O) in
  (replaceWith true true fontFaceRegex hintBlock content, updated || hinted).

(** The content of a style file after [updateSingleCssFile], and whether
    the file is written. *)
Definition updatedCss (content oldRef newRef : list ascii) : list ascii * bool :=
  let (content, updated) :=
    if includes content oldRef then (replaceAll content oldRef newRef, true)
    else (content, false) in
  if includes content newRef then
    let (content', updated') := updateFontFormats content in
    (content', updated || updated')
  else (content, updated).

Definition updateSingleCssFile (file oldRef newRef : list ascii) : M unit :=
  content <- fs.readFileSync file ;;
  let (content', updated) := updatedCss content oldRef newRef in
  if updated then fs.writeFileSync file content' else ret tt.

Definition updateFontFormat (buildDir oldPath newPath : list ascii) : M unit :=
  cssFiles <- FileSystem.findFiles buildDir [str ".css"] ;;
  let oldRef := PathUtils.getRelativePath buildDir oldPath in
  let newRef := PathUtils.getRelativePath buildDir newPath in
  forEach cssFiles (fun file => updateSingleCssFile file oldRef newRef).
End CSSFontUpdater.

(** ** FontOptimizer *)

Module FontOptimizer.
Section Optimizer.
Context `{FontLibrary}.
Variable buildDir : list ascii.

Definition processFont (fontPath : list ascii) : M (option (list ascii)) :=
  let ext := toLowerCase (path.extname fontPath) in
  if eqs ext (str ".woff2") then ret None
  else
    woff2Path <- FontConverter.convertToWoff2 fontPath ;;
    FileProcessor.updateFileReferences buildDir fontPath woff2Path ;;;
    CSSFontUpdater.updateFontFormat buildDir fontPath woff2Path ;;;
    fs.unlinkSync fontPath ;;;
    ret (Some woff2Path).

(** [if (result) processedFiles.push(result)] *)
Definition pushed (result : option (list ascii)) : list (list ascii) :=
  match result with
  | Some p => if eqs p [] then [] else [p]
  | None => []
  end.

Definition optimize : M (list (list ascii)) :=
  fonts <- FileProcessor.findFiles buildDir CONFIG.FONT_EXTS ;;
  match fonts with
  | [] => ret []
  | _ => passLoop processFont pushed fonts []
  end.
End Optimizer.
End FontOptimizer.

(** The text of a style file after the font pass has worked on one font:
    [updateSingleFileReferences], then [updateSingleCssFile] on what it
    left. *)
Definition cssAfterFont (content oldRef newRef : list ascii) : list ascii :=
  fst (CSSFontUpdater.updatedCss
         (fst (FileProcessor.updatedReferences content oldRef newRef)) oldRef newRef).

(** *** The allow-list in the words of the specification *)

Definition BasicLatin (c : Z) : Prop := 0x0000 <= c <= 0x007F.
Definition Latin1Supplement (c : Z) : Prop := 0x0080 <= c <= 0x00FF.
Definition LatinExtendedAB (c : Z) : Prop := 0x0100 <= c <= 0x024F.
Definition LatinExtendedAdditional (c : Z) : Prop := 0x1E00 <= c <= 0x1EFF.
Definition CombiningDiacriticalMarks (c : Z) : Prop := 0x0300 <= c <= 0x036F.

Definition allowListed (c : Z) : Prop :=
  BasicLatin c \/ Latin1Supplement c \/ LatinExtendedAB c \/ LatinExtendedAdditional c
  \/ CombiningDiacriticalMarks c \/ c = 0x20AB.

(** The state in which a call ends, when it is inside the model. *)
Definition finalState {A : Type} (o : outcome A) : option fsState :=
  match o with
  | Returns _ st => Some st
  | Throws _ st => Some st
  | Unmodelled => None
  end.

Definition returned {A : Type} (o : outcome A) : bool :=
  match o with Returns _ _ => true | _ => false end.

(** ** Traces *)

(** [st'] extends the trace of [st] by the writes of [ws], in order. *)
Definition writesOnly (st st' : fsState) (ws : list (list ascii)) : Prop :=
  trace st' = trace st ++ List.map EvWrite ws.

(** The paths of the variants of an image for the entries of a plan. *)
Definition variantPaths (imagePath : list ascii) (sizes : list SizeInfo) : list (list ascii) :=
  List.map (ImageVariantGenerator.outputPathOf imagePath) sizes.

(** The generated image of an entry of the plan. *)
Definition imageOf (imagePath : list ascii) (sizeInfo : SizeInfo) : GeneratedImage :=
  mkImage (ImageVariantGenerator.outputPathOf imagePath sizeInfo) (width sizeInfo)
    (folder sizeInfo) (type sizeInfo).

(** A write of a page, which only the reference rewriting does in the image
    pass. *)
Definition isHtmlWrite (e : event) : bool :=
  match e with
  | EvWrite p => FileSystem.hasValidExtension p [str ".html"]
  | EvUnlink _ => false
  end.

(** The order that the specification asks for: once the original is
    deleted, no page is rewritten any more. *)
Definition deletedAfterRewrite (imagePath : list ascii) (tr : list event) : Prop :=
  forall pre post, tr = pre ++ EvUnlink imagePath :: post ->
                   List.existsb isHtmlWrite post = false.

(** *** The srcset in the words of the specification *)

(** One entry of a srcset: the path of a variant relative to the page, and
    its width. *)
Definition srcsetEntry (file : list ascii) (img : GeneratedImage) : list ascii :=
  FileSystem.normalizePath (path.relative (path.dirname file) (img_path img))
  ++ str " " ++ numToString (img_width img) ++ str "w".

(** The entries of the variants that are not of the type [original]. *)
Definition spec_srcsetValues (file : list ascii) (generatedImages : list GeneratedImage)
    : list ascii :=
  joinWith (str ", ")
    (List.map (srcsetEntry file)
       (List.filter (fun img => negb (sizeType_eqb (img_type img) original))
          generatedImages)).

(** A match put back as it was. *)
Definition asItWas (rpre matched : list ascii) (groups : nat -> list ascii)
    (post : list ascii) : list ascii := matched.

(** *** Format tokens *)

(** The tokens of the formats that the font pass replaces, as style sheets
    write them: [format(QnameQ)] with [Q] a double or a single quote. *)
Definition legacyToken (q : ascii) (name : string) : list ascii :=
  str "format(" ++ [q] ++ str name ++ [q] ++ str ")".

Definition legacyTokens : list (list ascii) :=
  [ legacyToken dq "truetype"; legacyToken dq "opentype";
    legacyToken dq "ttf"; legacyToken dq "otf";
    legacyToken "'"%char "truetype"; legacyToken "'"%char "opentype";
    legacyToken "'"%char "ttf"; legacyToken "'"%char "otf" ].

(** The text after the token pattern has been replaced, from a position of
    the scan. *)
Definition afterFormats (rpre s : list ascii) (skip : nat) : list ascii :=
  List.flat_map
    (render (fun rpre m g post =>
               getSubstitution (S (List.length CSSFontUpdater.formatWoff2)) 0
                 CSSFontUpdater.formatWoff2 rpre m g post))
    (scan true CSSFontUpdater.re_format true rpre s skip).

(** [x] and [p] agree as far as both go: [p] may begin where [x] begins. *)
Fixpoint compat (x p : list ascii) : bool :=
  match x, p with
  | a :: x', b :: p' => Ascii.eqb a b && compat x' p'
  | _, _ => true
  end.

(** [p] begins at no position of [x], not even running past its end. *)
Fixpoint neverStarts (p x : list ascii) : bool :=
  match x with
  | [] => true
  | _ :: x' => negb (compat x p) && neverStarts p x'
  end.

(** What the callback on a font-face block puts in front of the semicolon. *)
Definition hintText : list ascii := str " " ++ CSSFontUpdater.formatWoff2.

(** [hinted x y]: [y] is [x] where, in front of some semicolons, a text has
    given way to the format hint. *)
Inductive hinted : list ascii -> list ascii -> Prop :=
| hinted_nil : hinted [] []
| hinted_keep c x y : hinted x y -> hinted (c :: x) (c :: y)
| hinted_hint w x y :
    hinted x y -> hinted (w ++ ";"%char :: x) (hintText ++ ";"%char :: y).

(** ** A build directory to run the model on *)

Module Demo.
(** A codec that reads the width 300 from every image and fails to encode
    the image whose bytes are [B]. *)
Definition sharp : Sharp :=
  {| metadata := fun _ => Some (Some 300);
     resizeAvif := fun bytes w =>
       if eqs bytes (str "B") then None else Some (str "AVIF " ++ numToString w) |}.

Definition page : list ascii :=
  js "<img src=`img/a.jpg` alt=`A`><img src=`img/b.jpg`><img class=`c` src=`img/c.jpg`>".

Definition site : fsState :=
  mkFs [ (str "dist/index.html", page);
         (str "dist/img/a.jpg", str "A");
         (str "dist/img/b.jpg", str "B");
         (str "dist/img/c.jpg", str "C") ] [].

Definition images : list (list ascii) :=
  [str "dist/img/a.jpg"; str "dist/img/b.jpg"; str "dist/img/c.jpg"].

Definition processImage : list ascii -> M (list (list ascii)) :=
  ImageOptimizer.processImage (H := sharp) (str "dist").

(** The variants of the image [dist/img/NAME.jpg] of width 300. *)
Definition variantsOf (name : string) : list (list ascii) :=
  [ str "dist/img/128/" ++ str name ++ str "-128w.avif";
    str "dist/img/256/" ++ str name ++ str "-256w.avif";
    str "dist/img/original/" ++ str name ++ str ".avif" ].

(** The generated images of [dist/img/NAME.jpg]. *)
Definition generated (name : string) : list GeneratedImage :=
  List.map (imageOf (str "dist/img/" ++ str name ++ str ".jpg")) (calculate 300).

(** [updateSingleFile] on the text of [dist/index.html] for the image
    [dist/img/NAME.jpg]. *)
Definition rewritePage (name : string) (content : list ascii)
    : option (option (list ascii * bool)) :=
  let originalImagePath := str "dist/img/original/" ++ str name ++ str ".avif" in
  let baseName := PathUtils.getBaseNameWithoutExt originalImagePath in
  HtmlSrcsetUpdater.updatedContent (str "dist/index.html") baseName
    (HtmlSrcsetUpdater.createBaseReference (str "dist") originalImagePath baseName)
    (generated name) content.

(** A style sheet with a font-face block for the font A, one for the font
    B, and a rule that is no font-face block. *)
Definition blockA : list ascii :=
  js "@font-face { font-family: A; src: url(`../fonts/fontA.ttf`) format(`truetype`); }".

Definition blockB : list ascii :=
  js "@font-face { font-family: B; src: url(`../fonts/fontB.otf`) format(`opentype`); }".

Definition note : list ascii :=
  js ".note::after { content: 'format(`ttf`)'; }".

Definition oldRef : list ascii := str "fonts/fontA.ttf".
Definition newRef : list ascii := str "fonts/fontA.woff2".
End Demo.

(** * Proofs *)

(** ** Size plans *)

Ltac round_arith :=
  unfold Math_round, spec_round, Qfloor, Qplus, Qmult, inject_Z;
  cbn [Qnum Qden Pos.mul Z.mul Pos.add];
  Z.to_euclidean_division_equations; lia.

Ltac div_arith := zify; Z.to_euclidean_division_equations; lia.

Section RoundFacts.
Variable d : Z.

Lemma Math_round_quarter : Math_round (inject_Z d * 0.25) = (d + 2) / 4.
Proof. round_arith. Qed.

Lemma Math_round_half : Math_round (inject_Z d * 0.5) = (d + 1) / 2.
Proof. round_arith. Qed.

Lemma Math_round_three_quarter : Math_round (inject_Z d * 0.75) = (3 * d + 2) / 4.
Proof. round_arith. Qed.
End RoundFacts.

(** The loop from the [j]-th multiple on, with enough fuel to reach the
    test that ends it. *)
Lemma addIncrementalSizes_loop_run (ow : Z) (fuel j : nat) (sizes : list SizeInfo) :
  (1 <= j)%nat -> (10 <= fuel + j)%nat ->
  addIncrementalSizes_loop fuel (128 * Z.of_nat j) sizes ow =
  sizes ++ List.map incrEntry
    (List.map (fun k => 128 * Z.of_nat k)
       (seq j (S (Z.to_nat (Z.min 1024 ow / 128)) - j))).
Proof.
  revert j sizes; induction fuel as [|fuel IH]; intros j sizes Hj Hf.
  - replace (S (Z.to_nat (Z.min 1024 ow / 128)) - j)%nat with 0%nat by div_arith.
    simpl. now rewrite app_nil_r.
  - cbn [addIncrementalSizes_loop].
    unfold CONFIG.MAX_INCREMENT_SIZE, CONFIG.SIZE_INCREMENT.
    destruct ((128 * Z.of_nat j <=? 1024) && (128 * Z.of_nat j <=? ow)) eqn:E.
    + apply andb_true_iff in E as [E1 E2].
      apply Z.leb_le in E1, E2.
      assert (Hk : (j <= Z.to_nat (Z.min 1024 ow / 128))%nat) by div_arith.
      replace (128 * Z.of_nat j + 128) with (128 * Z.of_nat (S j)) by lia.
      rewrite IH by lia.
      replace (S (Z.to_nat (Z.min 1024 ow / 128)) - j)%nat
        with (S (S (Z.to_nat (Z.min 1024 ow / 128)) - S j))%nat by lia.
      cbn [seq List.map]. rewrite <- app_assoc. reflexivity.
    + apply andb_false_iff in E.
      assert (Hk : (Z.to_nat (Z.min 1024 ow / 128) < j)%nat)
        by (destruct E as [E|E]; apply Z.leb_gt in E; div_arith).
      replace (S (Z.to_nat (Z.min 1024 ow / 128)) - j)%nat with 0%nat by lia.
      simpl. now rewrite app_nil_r.
Qed.

Lemma addIncrementalSizes_spec (ow : Z) :
  addIncrementalSizes [] ow = spec_increment_phase ow.
Proof.
  unfold addIncrementalSizes.
  change (Z.to_nat (CONFIG.MAX_INCREMENT_SIZE / CONFIG.SIZE_INCREMENT)) with 8%nat.
  change CONFIG.SIZE_INCREMENT with (128 * Z.of_nat 1).
  rewrite addIncrementalSizes_loop_run by lia.
  unfold spec_increment_phase, multiples_of_128_up_to.
  cbn [Nat.sub]. now rewrite Nat.sub_0_r.
Qed.

Lemma addIntermediateSizes_spec (ow : Z) (sizes : list SizeInfo) :
  addIntermediateSizes sizes ow = sizes ++ spec_intermediate_phase ow.
Proof.
  unfold addIntermediateSizes, spec_intermediate_phase, spec_round, Math_round,
    CONFIG.MAX_INCREMENT_SIZE, CONFIG.MIN_QUARTER_INCREMENT.
  destruct (Z.leb_spec ow 1024) as [H|H], (Z.ltb_spec 1024 ow) as [H'|H']; try lia.
  - now rewrite app_nil_r.
  - set (q := Qfloor (inject_Z (ow - 1024) * 0.25 + 0.5)).
    destruct (Z.leb_spec 128 q), (Z.geb_spec q 128); try lia; reflexivity.
Qed.

Lemma calculate_spec_plan (ow : Z) : calculate ow = spec_plan ow.
Proof.
  unfold calculate, addOriginalSize, spec_plan, spec_original_phase.
  now rewrite addIntermediateSizes_spec, addIncrementalSizes_spec, <- app_assoc.
Qed.

(** *** Order lemmas *)

Lemma ordered_app (R : Z -> Z -> Prop) (l1 l2 : list Z) :
  ordered R l1 -> ordered R l2 ->
  (forall x y, In x l1 -> In y l2 -> R x y) ->
  ordered R (l1 ++ l2).
Proof.
  induction l1 as [|x t IH]; intros H1 H2 H; [exact H2|].
  destruct H1 as [Hx H1]. split.
  - destruct t as [|x' t]; [|exact Hx].
    destruct l2 as [|y l2]; [exact I|]. apply H; simpl; auto.
  - apply IH; auto. intros a b Ha Hb. apply H; simpl; auto.
Qed.

Lemma ordered_weaken (R R' : Z -> Z -> Prop) (l : list Z) :
  (forall x y, R x y -> R' x y) -> ordered R l -> ordered R' l.
Proof.
  intros HR; induction l as [|x t IH]; [easy|].
  intros [Hx Ht]. split; [|auto]. destruct t; auto.
Qed.

Lemma ordered_lt_head (x : Z) (l : list Z) :
  strictly_increasing (x :: l) -> forall y, In y l -> x < y.
Proof.
  revert x; induction l as [|z t IH]; intros x H y Hy; [destruct Hy|].
  destruct H as [Hxz H]. destruct Hy as [<-|Hy]; [exact Hxz|].
  specialize (IH z H y Hy). lia.
Qed.

Lemma strictly_increasing_NoDup (l : list Z) : strictly_increasing l -> List.NoDup l.
Proof.
  induction l as [|x t IH]; intros H; constructor.
  - intros Hin. pose proof (ordered_lt_head x t H x Hin). lia.
  - apply IH. destruct t; [exact I | apply H].
Qed.

Lemma multiples_seq_increasing (j n : nat) :
  strictly_increasing (List.map (fun k => 128 * Z.of_nat k) (seq j n)).
Proof.
  revert j; induction n as [|n IH]; intros j; [exact I|].
  cbn [seq List.map]. split; [|apply IH].
  destruct n; cbn [seq List.map]; [exact I | lia].
Qed.

Lemma multiples_of_128_increasing (b : Z) : strictly_increasing (multiples_of_128_up_to b).
Proof. apply multiples_seq_increasing. Qed.

Lemma multiples_of_128_bounds (b w : Z) :
  In w (multiples_of_128_up_to b) -> 128 <= w <= b /\ w mod 128 = 0.
Proof.
  unfold multiples_of_128_up_to. rewrite in_map_iff.
  intros (k & <- & Hk). apply in_seq in Hk.
  split; [div_arith|]. rewrite Z.mul_comm. apply Z.mod_mul. lia.
Qed.

Lemma multiples_of_128_complete (b w : Z) :
  128 <= w <= b -> w mod 128 = 0 -> In w (multiples_of_128_up_to b).
Proof.
  intros Hw Hm. unfold multiples_of_128_up_to. apply in_map_iff.
  exists (Z.to_nat (w / 128)). split; [div_arith|].
  apply in_seq. div_arith.
Qed.

(** *** The plan's shape *)

Lemma widths_spec_increment_phase (ow : Z) :
  widths (spec_increment_phase ow) = multiples_of_128_up_to (Z.min 1024 ow).
Proof.
  unfold widths, spec_increment_phase. rewrite List.map_map. apply List.map_id.
Qed.

Lemma widths_calculate (ow : Z) :
  widths (calculate ow) =
  multiples_of_128_up_to (Z.min 1024 ow) ++ widths (spec_intermediate_phase ow) ++ [ow].
Proof.
  rewrite calculate_spec_plan. unfold spec_plan, widths.
  rewrite !List.map_app. fold (widths (spec_increment_phase ow)).
  now rewrite widths_spec_increment_phase.
Qed.

Lemma filter_increment_phase (f : SizeInfo -> bool) (ow : Z) :
  (forall s, type s = increment -> f s = true) ->
  List.filter f (spec_increment_phase ow) = spec_increment_phase ow.
Proof.
  intros Hf. unfold spec_increment_phase.
  induction (multiples_of_128_up_to (Z.min 1024 ow)) as [|w t IH]; [reflexivity|].
  cbn [List.map List.filter]. rewrite Hf by reflexivity. now rewrite IH.
Qed.

Lemma filter_increment_phase_none (f : SizeInfo -> bool) (ow : Z) :
  (forall s, type s = increment -> f s = false) ->
  List.filter f (spec_increment_phase ow) = [].
Proof.
  intros Hf. unfold spec_increment_phase.
  induction (multiples_of_128_up_to (Z.min 1024 ow)) as [|w t IH]; [reflexivity|].
  cbn [List.map List.filter]. now rewrite Hf by reflexivity.
Qed.

Lemma originals_calculate (ow : Z) : originals (calculate ow) = [originalEntry ow].
Proof.
  rewrite calculate_spec_plan. unfold originals, spec_plan.
  rewrite !List.filter_app, filter_increment_phase_none
    by (now intros s ->).
  unfold spec_intermediate_phase.
  destruct (1024 <? ow); [destruct (128 <=? _)|]; reflexivity.
Qed.

Lemma non_originals_calculate (ow : Z) :
  non_originals (calculate ow) = spec_increment_phase ow ++ spec_intermediate_phase ow.
Proof.
  rewrite calculate_spec_plan. unfold non_originals, spec_plan.
  rewrite !List.filter_app, filter_increment_phase by (now intros s ->).
  unfold spec_intermediate_phase.
  destruct (1024 <? ow); [destruct (128 <=? _)|]; cbn; now rewrite ?app_nil_r.
Qed.

(** The intermediate widths lie strictly above 1024, at most at the
    original width, and grow strictly. *)
Lemma intermediate_widths (ow : Z) :
  strictly_increasing (widths (spec_intermediate_phase ow)) /\
  (forall w, In w (widths (spec_intermediate_phase ow)) -> 1024 < w <= ow).
Proof.
  unfold spec_intermediate_phase.
  destruct (Z.ltb_spec 1024 ow) as [H|H]; [|split; [exact I | intros w []]].
  change spec_round with Math_round.
  rewrite Math_round_quarter, Math_round_half, Math_round_three_quarter.
  destruct (Z.leb_spec 128 ((ow - 1024 + 2) / 4)) as [Hq|Hq]; cbn.
  - split; [repeat split; div_arith|].
    intros w [<-|[<-|[<-|[]]]]; div_arith.
  - split; [repeat split|]. intros w [<-|[]]; div_arith.
Qed.

Lemma plan_non_decreasing (ow : Z) : non_decreasing (widths (calculate ow)).
Proof.
  rewrite widths_calculate.
  destruct (intermediate_widths ow) as [Hi Hb].
  apply ordered_app.
  - apply (ordered_weaken Z.lt); [lia | apply multiples_of_128_increasing].
  - apply ordered_app.
    + apply (ordered_weaken Z.lt); [lia | exact Hi].
    + repeat split.
    + intros x y Hx [<-|[]]. apply Hb in Hx. lia.
  - intros x y Hx Hy. apply multiples_of_128_bounds in Hx.
    apply in_app_iff in Hy as [Hy|[<-|[]]]; [apply Hb in Hy|]; lia.
Qed.

Lemma plan_non_originals_increasing (ow : Z) :
  strictly_increasing (widths (non_originals (calculate ow))).
Proof.
  rewrite non_originals_calculate. unfold widths. rewrite List.map_app.
  fold (widths (spec_increment_phase ow)). rewrite widths_spec_increment_phase.
  destruct (intermediate_widths ow) as [Hi Hb].
  apply ordered_app; [apply multiples_of_128_increasing | exact Hi |].
  intros x y Hx Hy. apply multiples_of_128_bounds in Hx. apply Hb in Hy. lia.
Qed.

Lemma plan_widths_bounded (ow : Z) :
  0 < ow -> Forall (fun s => 0 < width s <= ow) (calculate ow).
Proof.
  intros Hpos. apply List.Forall_forall. intros s Hs.
  apply (in_map width) in Hs. fold (widths (calculate ow)) in Hs.
  rewrite widths_calculate in Hs.
  destruct (intermediate_widths ow) as [_ Hb].
  apply in_app_iff in Hs as [Hs|Hs]; [apply multiples_of_128_bounds in Hs; lia|].
  apply in_app_iff in Hs as [Hs|[<-|[]]]; [apply Hb in Hs|]; lia.
Qed.

Lemma plan_small_width (ow : Z) :
  ow <= 1024 ->
  calculate ow = List.map incrEntry (multiples_of_128_up_to ow) ++ [originalEntry ow].
Proof.
  intros H. rewrite calculate_spec_plan.
  unfold spec_plan, spec_increment_phase, spec_intermediate_phase, spec_original_phase.
  destruct (Z.ltb_spec 1024 ow); [lia|]. now rewrite Z.min_r by lia.
Qed.

(** *** The claims on the size plan *)

(** C2 (as amended). For every positive width the plan of [calculate] is the
    plan of the specification: the multiples of 128 up to
    [min 1024 originalWidth] tagged [increment], the one or three rounded
    intermediate breakpoints above 1024, and one appended [original] entry.
    For [originalWidth <= 1024] it is the multiples of 128 up to the width
    followed by the original entry; its widths never decrease, the entries
    before the original one grow strictly, there is exactly one original
    entry, and the whole plan grows strictly exactly when the width is not a
    multiple of 128. *)
Theorem size_plan_reference (originalWidth : Z) :
  0 < originalWidth ->
  calculate originalWidth = spec_plan originalWidth /\
  (originalWidth <= 1024 ->
     calculate originalWidth =
       List.map incrEntry (multiples_of_128_up_to originalWidth)
       ++ [originalEntry originalWidth] /\
     non_decreasing (widths (calculate originalWidth)) /\
     strictly_increasing (widths (non_originals (calculate originalWidth))) /\
     (strictly_increasing (widths (calculate originalWidth))
        <-> originalWidth mod 128 <> 0) /\
     List.length (originals (calculate originalWidth)) = 1%nat).
Proof.
  intros Hpos. split; [apply calculate_spec_plan|]. intros Hsmall.
  split; [now apply plan_small_width|].
  split; [apply plan_non_decreasing|].
  split; [apply plan_non_originals_increasing|].
  split; [|now rewrite originals_calculate].
  rewrite widths_calculate, Z.min_r by lia.
  unfold spec_intermediate_phase.
  destruct (Z.ltb_spec 1024 originalWidth); [lia|]. cbn [widths List.map app].
  split.
  - intros Hs Hm. apply strictly_increasing_NoDup, NoDup_remove_2 in Hs.
    apply Hs. rewrite app_nil_r.
    apply multiples_of_128_complete; [|exact Hm]. div_arith.
  - intros Hm. apply ordered_app; [apply multiples_of_128_increasing | repeat split |].
    intros x y Hx [<-|[]]. apply multiples_of_128_bounds in Hx.
    destruct (Z.eq_dec x originalWidth) as [->|]; lia.
Qed.

Lemma size_plan_reference_witness :
  0 < 300 /\
  calculate 300 = spec_plan 300 /\
  (300 <= 1024 ->
     calculate 300 =
       List.map incrEntry (multiples_of_128_up_to 300) ++ [originalEntry 300] /\
     non_decreasing (widths (calculate 300)) /\
     strictly_increasing (widths (non_originals (calculate 300))) /\
     (strictly_increasing (widths (calculate 300)) <-> 300 mod 128 <> 0) /\
     List.length (originals (calculate 300)) = 1%nat).
Proof. split; [lia | apply (size_plan_reference 300); lia]. Defined.

(** C2, as stated, fails: at the width 256 (positive, at most 1024) the plan
    has the widths 128, 256, 256, which do not grow strictly. *)
Lemma size_plan_strict_counterexample :
  0 < 256 /\ 256 <= 1024 /\
  widths (calculate 256) = [128; 256; 256] /\
  ~ strictly_increasing (widths (calculate 256)).
Proof.
  split; [lia|]. split; [lia|]. split; [reflexivity|].
  change (widths (calculate 256)) with [128; 256; 256].
  intros (_ & H & _). lia.
Qed.

(** C5. For every positive width the plan is ordered: its widths never
    decrease; it has exactly one entry of kind [original], the last one,
    whose width is the source width; and the entries that are not of kind
    [original] have strictly growing, hence pairwise different, widths. *)
Theorem size_plan_invariant (originalWidth : Z) :
  0 < originalWidth ->
  non_decreasing (widths (calculate originalWidth)) /\
  originals (calculate originalWidth) = [originalEntry originalWidth] /\
  calculate originalWidth =
    non_originals (calculate originalWidth) ++ [originalEntry originalWidth] /\
  strictly_increasing (widths (non_originals (calculate originalWidth))) /\
  List.NoDup (widths (non_originals (calculate originalWidth))).
Proof.
  intros _. split; [apply plan_non_decreasing|].
  split; [apply originals_calculate|].
  split.
  - rewrite non_originals_calculate, calculate_spec_plan.
    unfold spec_plan. now rewrite <- app_assoc.
  - split; [|apply strictly_increasing_NoDup]; apply plan_non_originals_increasing.
Qed.

Lemma size_plan_invariant_witness :
  0 < 2000 /\
  non_decreasing (widths (calculate 2000)) /\
  originals (calculate 2000) = [originalEntry 2000] /\
  calculate 2000 = non_originals (calculate 2000) ++ [originalEntry 2000] /\
  strictly_increasing (widths (non_originals (calculate 2000))) /\
  List.NoDup (widths (non_originals (calculate 2000))).
Proof. split; [lia | apply (size_plan_invariant 2000); lia]. Defined.

(** C10. No upscaling: for every positive width every entry of the plan has
    a positive width of at most the original width, in particular each
    rounded intermediate breakpoint [1024 + round (diff * r)]; the plan is
    never empty, and below 128 it is the original entry alone. *)
Theorem size_plan_no_upscaling (originalWidth : Z) :
  0 < originalWidth ->
  List.Forall (fun s => 0 < width s <= originalWidth) (calculate originalWidth) /\
  (1024 < originalWidth ->
     let diff := originalWidth - 1024 in
     1024 + Math_round (inject_Z diff * 0.25) <= originalWidth /\
     1024 + Math_round (inject_Z diff * 0.5) <= originalWidth /\
     1024 + Math_round (inject_Z diff * 0.75) <= originalWidth) /\
  calculate originalWidth <> [] /\
  (originalWidth < 128 -> calculate originalWidth = [originalEntry originalWidth]).
Proof.
  intros Hpos. split; [now apply plan_widths_bounded|]. split.
  - intros Hbig diff.
    rewrite Math_round_quarter, Math_round_half, Math_round_three_quarter.
    subst diff. repeat split; div_arith.
  - split.
    + rewrite calculate_spec_plan. unfold spec_plan, spec_original_phase.
      intros E. apply (f_equal (@List.length _)) in E.
      rewrite !List.length_app in E. cbn in E. lia.
    + intros Hsmall. rewrite plan_small_width by lia.
      unfold multiples_of_128_up_to.
      replace (Z.to_nat (originalWidth / 128)) with 0%nat by div_arith.
      reflexivity.
Qed.

Lemma size_plan_no_upscaling_witness :
  0 < 1100 /\
  List.Forall (fun s => 0 < width s <= 1100) (calculate 1100) /\
  (1024 < 1100 ->
     let diff := 1100 - 1024 in
     1024 + Math_round (inject_Z diff * 0.25) <= 1100 /\
     1024 + Math_round (inject_Z diff * 0.5) <= 1100 /\
     1024 + Math_round (inject_Z diff * 0.75) <= 1100) /\
  calculate 1100 <> [] /\
  (1100 < 128 -> calculate 1100 = [originalEntry 1100]).
Proof. split; [lia | apply (size_plan_no_upscaling 1100); lia]. Defined.

(** The two plans that the specification works out. *)
Example plan_2000 :
  widths (calculate 2000) =
  [128; 256; 384; 512; 640; 768; 896; 1024; 1268; 1512; 1756; 2000].
Proof. reflexivity. Qed.

Example plan_1100 :
  widths (calculate 1100) = [128; 256; 384; 512; 640; 768; 896; 1024; 1062; 1100].
Proof. reflexivity. Qed.

(** ** Font subsetting *)

Lemma filter_allowListed (g : Glyph) :
  FontConverter.filter g = true <->
  exists code, unicode g = Some code /\ code <> 0 /\ allowListed code.
Proof.
  unfold FontConverter.filter, FontConverter.truthy, allowListed, BasicLatin,
    Latin1Supplement, LatinExtendedAB, LatinExtendedAdditional, CombiningDiacriticalMarks.
  destruct (unicode g) as [code|]; [|split; [discriminate | intros (c & E & _); discriminate]].
  destruct (Z.eqb_spec code 0) as [->|Hne]; cbn [negb].
  - split; [discriminate | intros (c & [= <-] & Hc & _); now elim Hc].
  - cbn [List.existsb FontConverter.allowedRanges FontConverter.allowedSingles].
    rewrite !orb_true_iff, !andb_true_iff, !Z.geb_le, !Z.leb_le, Z.eqb_eq.
    split.
    + intros Hr. exists code. repeat split; auto. intuition lia.
    + intros (c & [= <-] & _ & Hr). intuition lia.
Qed.

Lemma cmapOf_fold (kept : list Glyph) (acc : gmap Z (list ascii)) (c : Z) :
  is_Some
    (List.fold_left
       (fun map glyph =>
          match unicode glyph with
          | Some code =>
              if FontConverter.truthy (unicode glyph) then <[code := name glyph]> map else map
          | None => map
          end) kept acc !! c) <->
  is_Some (acc !! c) \/
  exists g, In g kept /\ unicode g = Some c /\ FontConverter.truthy (unicode g) = true.
Proof.
  revert acc; induction kept as [|g kept IH]; intros acc; cbn [List.fold_left].
  - split; [auto | intros [H|(g & [] & _)]; exact H].
  - rewrite IH. split.
    + intros [Hacc|(g' & Hin & Hu & Ht)].
      * destruct (unicode g) as [code|] eqn:Eu; [|auto].
        destruct (FontConverter.truthy (Some code)) eqn:Et; [|auto].
        destruct (decide (code = c)) as [->|Hne].
        -- right. exists g. rewrite Eu. simpl; auto.
        -- rewrite lookup_insert_ne in Hacc by exact Hne. auto.
      * right. exists g'. simpl; auto.
    + intros [Hacc|(g' & [<-|Hin] & Hu & Ht)].
      * left. destruct (unicode g) as [code|]; [|exact Hacc].
        destruct (FontConverter.truthy (Some code)); [|exact Hacc].
        destruct (decide (code = c)) as [->|Hne].
        -- rewrite lookup_insert_eq. eauto.
        -- now rewrite lookup_insert_ne.
      * left. rewrite Hu in *. rewrite Ht. rewrite lookup_insert_eq. eauto.
      * right. exists g'. auto.
Qed.



(** ** The passes: failures stay with their asset *)

Section Pass.
Context {R : Type}.
Variable process : list ascii -> M R.
Variable collect : R -> list (list ascii).

Lemma passLoop_cons (asset : list ascii) (rest : list (list ascii))
    (acc : list (list ascii)) (st : fsState) :
  passLoop process collect (asset :: rest) acc st =
  match process asset st with
  | Returns r st' => passLoop process collect rest (acc ++ collect r) st'
  | Throws _ st' => passLoop process collect rest acc st'
  | Unmodelled => Unmodelled
  end.
Proof.
  cbn [passLoop]. unfold bind, tryCatch, ret.
  destruct (process asset st); reflexivity.
Qed.

Lemma passLoop_app (before after : list (list ascii)) (acc : list (list ascii))
    (st : fsState) :
  passLoop process collect (before ++ after) acc st =
  match passLoop process collect before acc st with
  | Returns acc' st' => passLoop process collect after acc' st'
  | Throws msg st' => Throws msg st'
  | Unmodelled => Unmodelled
  end.
Proof.
  revert acc st; induction before as [|a before IH]; intros acc st; [reflexivity|].
  cbn [app]. rewrite !passLoop_cons.
  destruct (process a st); auto.
Qed.

Lemma passLoop_returns (assets : list (list ascii)) (acc : list (list ascii))
    (st : fsState) :
  passLoop process collect assets acc st <> Unmodelled ->
  exists out st', passLoop process collect assets acc st = Returns (acc ++ out) st'.
Proof.
  revert acc st; induction assets as [|a assets IH]; intros acc st Hm.
  - exists [], st. cbn. unfold ret. now rewrite app_nil_r.
  - rewrite passLoop_cons in *.
    destruct (process a st) as [r st'|msg st'|]; [| |congruence].
    + destruct (IH _ _ Hm) as (out & st'' & E).
      exists (collect r ++ out), st''. now rewrite E, app_assoc.
    + exact (IH _ _ Hm).
Qed.
End Pass.


Section PassesOfTheOptimizers.
Context `{Sharp} `{FontLibrary}.
Variable buildDir : list ascii.

Lemma findFiles_pure (extensions : list (list ascii)) (st : fsState) :
  exists found, FileProcessor.findFiles buildDir extensions st = Returns found st.
Proof. eexists. reflexivity. Qed.

(** The image pass and the font pass are this loop over the files found. *)
Lemma image_pass_is_passLoop (st : fsState) :
  exists images,
    FileProcessor.findFiles buildDir CONFIG.IMAGE_EXTS st = Returns images st /\
    ImageOptimizer.optimize buildDir st =
    passLoop (ImageOptimizer.processImage buildDir) (fun result => result) images [] st.
Proof.
  destruct (findFiles_pure CONFIG.IMAGE_EXTS st) as (images & E).
  exists images. split; [exact E|].
  unfold ImageOptimizer.optimize, bind. rewrite E. now destruct images.
Qed.

Lemma font_pass_is_passLoop (st : fsState) :
  exists fonts,
    FileProcessor.findFiles buildDir CONFIG.FONT_EXTS st = Returns fonts st /\
    FontOptimizer.optimize buildDir st =
    passLoop (FontOptimizer.processFont buildDir) FontOptimizer.pushed fonts [] st.
Proof.
  destruct (findFiles_pure CONFIG.FONT_EXTS st) as (fonts & E).
  exists fonts. split; [exact E|].
  unfold FontOptimizer.optimize, bind. rewrite E. now destruct fonts.
Qed.
End PassesOfTheOptimizers.


(** The image pass on a directory with the images A, B and C, where the
    codec fails on B: the variants of A and of C are the processed files,
    B is still in the directory, and the pass returns. *)
Example image_pass_with_failing_asset :
  exists st',
    ImageOptimizer.optimize (H := Demo.sharp) (str "dist") Demo.site
      = Returns (Demo.variantsOf "a" ++ Demo.variantsOf "c") st' /\
    fs.existsSync (str "dist/img/a.jpg") st' = false /\
    fs.existsSync (str "dist/img/b.jpg") st' = true /\
    fs.existsSync (str "dist/img/c.jpg") st' = false.
Proof. eexists. split; [vm_compute; reflexivity|]. vm_compute. auto. Qed.

(** ** The order of the effects of [processImage] *)

Lemma writesOnly_refl (st : fsState) : writesOnly st st [].
Proof. unfold writesOnly. now rewrite app_nil_r. Qed.

Lemma writesOnly_trans (st1 st2 st3 : fsState) (ws ws' : list (list ascii)) :
  writesOnly st1 st2 ws -> writesOnly st2 st3 ws' -> writesOnly st1 st3 (ws ++ ws').
Proof.
  unfold writesOnly. intros -> ->. now rewrite List.map_app, app_assoc.
Qed.

Lemma writeFileSync_trace (p c : list ascii) (st : fsState) :
  exists st', fs.writeFileSync p c st = Returns tt st' /\ writesOnly st st' [p].
Proof. eexists. split; reflexivity. Qed.

Lemma updateSingleFile_trace (file baseName baseRef : list ascii)
    (imgs : list GeneratedImage) (st : fsState) :
  match finalState (HtmlSrcsetUpdater.updateSingleFile file baseName baseRef imgs st) with
  | Some st' => exists ws, writesOnly st st' ws
  | None => True
  end.
Proof.
  unfold HtmlSrcsetUpdater.updateSingleFile, bind, fs.readFileSync.
  destruct (fs.lookup file (files st)) as [content|]; cbn [finalState];
    [|exists []; apply writesOnly_refl].
  destruct (HtmlSrcsetUpdater.updatedContent _ _ _ _ _) as [[[content' [|]]|]|];
    cbn [finalState throw ret fs.writeFileSync unmodelled]; auto.
  - exists [file]. reflexivity.
  - exists []. apply writesOnly_refl.
  - exists []. apply writesOnly_refl.
Qed.

Lemma forEach_trace {A : Type} (body : A -> M unit) (xs : list A) :
  (forall x st, match finalState (body x st) with
                | Some st' => exists ws, writesOnly st st' ws
                | None => True
                end) ->
  forall st, match finalState (forEach xs body st) with
             | Some st' => exists ws, writesOnly st st' ws
             | None => True
             end.
Proof.
  intros Hbody. induction xs as [|x xs IH]; intros st; cbn [forEach].
  - exists []. apply writesOnly_refl.
  - unfold bind. specialize (Hbody x st).
    destruct (body x st) as [[] st1|msg st1|]; cbn [finalState] in *; auto.
    destruct Hbody as (ws & Hws). specialize (IH st1).
    destruct (finalState (forEach xs body st1)) as [st2|]; auto.
    destruct IH as (ws' & Hws'). exists (ws ++ ws').
    eapply writesOnly_trans; eauto.
Qed.

Lemma updateAll_trace (buildDir originalImagePath : list ascii)
    (imgs : list GeneratedImage) (st : fsState) :
  match finalState (HtmlSrcsetUpdater.updateAll buildDir originalImagePath imgs st) with
  | Some st' => exists ws, writesOnly st st' ws
  | None => True
  end.
Proof.
  unfold HtmlSrcsetUpdater.updateAll, bind, FileSystem.findFiles.
  apply forEach_trace. intros file st1. apply updateSingleFile_trace.
Qed.

Section Generator.
Context `{Sharp}.
Variable imagePath : list ascii.

Lemma generateSingleVariant_trace (sizeInfo : SizeInfo) (st : fsState) :
  match ImageVariantGenerator.generateSingleVariant imagePath sizeInfo st with
  | Returns p st' =>
      p = ImageVariantGenerator.outputPathOf imagePath sizeInfo /\ writesOnly st st' [p]
  | Throws _ st' => st' = st
  | Unmodelled => False
  end.
Proof.
  unfold ImageVariantGenerator.generateSingleVariant, bind,
    FileSystem.ensureDirectory, ret, fs.readFileSync.
  destruct (fs.lookup imagePath (files st)) as [bytes|]; [|reflexivity].
  destruct (resizeAvif bytes (width sizeInfo)); [|reflexivity].
  cbn. split; reflexivity.
Qed.

(** The loop writes the variants in the order of the plan; when a variant
    fails, the variants before it are written and nothing else is done. *)
Lemma generateLoop_trace (sizes : list SizeInfo) (acc : list GeneratedImage)
    (st : fsState) :
  match ImageVariantGenerator.generateLoop imagePath sizes acc st with
  | Returns imgs st' =>
      imgs = acc ++ List.map (imageOf imagePath) sizes /\
      writesOnly st st' (variantPaths imagePath sizes)
  | Throws _ st' =>
      exists n, (n < List.length sizes)%nat /\
                writesOnly st st' (variantPaths imagePath (List.firstn n sizes))
  | Unmodelled => False
  end.
Proof.
  revert acc st; induction sizes as [|s sizes IH]; intros acc st;
    cbn [ImageVariantGenerator.generateLoop].
  - unfold ret. split; [now rewrite app_nil_r | apply writesOnly_refl].
  - unfold bind. pose proof (generateSingleVariant_trace s st) as Hs.
    destruct (ImageVariantGenerator.generateSingleVariant imagePath s st)
      as [p st1|msg st1|]; [| |exact Hs].
    + destruct Hs as [-> Hw].
      specialize (IH (acc ++ [mkImage (ImageVariantGenerator.outputPathOf imagePath s)
                                (width s) (folder s) (type s)]) st1).
      destruct (ImageVariantGenerator.generateLoop imagePath sizes _ st1)
        as [imgs st2|msg st2|]; [| |exact IH].
      * destruct IH as [E Hw2]. split.
        -- rewrite E, <- app_assoc. reflexivity.
        -- exact (writesOnly_trans _ _ _ _ _ Hw Hw2).
      * destruct IH as (n & Hn & Hw2). exists (S n). split; [cbn; lia|].
        exact (writesOnly_trans _ _ _ _ _ Hw Hw2).
    + subst st1. exists 0%nat. split; [cbn; lia | apply writesOnly_refl].
Qed.
End Generator.


(** The image [dist/img/a.jpg] of the demonstration directory: the three
    variants are written, the original is deleted, and only then is the page
    rewritten. *)
Lemma demo_trace :
  exists paths st',
    Demo.processImage (str "dist/img/a.jpg") Demo.site = Returns paths st' /\
    trace st' =
      List.map EvWrite (Demo.variantsOf "a")
      ++ [EvUnlink (str "dist/img/a.jpg"); EvWrite (str "dist/index.html")].
Proof. eexists _, _. split; vm_compute; reflexivity. Qed.



(** ** The matcher finds only what the pattern matches *)

Lemma lastOr_app (p : option ascii) (w1 w2 : list ascii) :
  lastOr p (w1 ++ w2) = lastOr (lastOr p w1) w2.
Proof. apply List.fold_left_app. Qed.

Lemma shiftCaps_app (d : nat) (c1 c2 : list (nat * (nat * nat))) :
  shiftCaps d (c1 ++ c2) = shiftCaps d c1 ++ shiftCaps d c2.
Proof. apply List.map_app. Qed.

Lemma shiftCaps_shiftCaps (d e : nat) (cs : list (nat * (nat * nat))) :
  shiftCaps d (shiftCaps e cs) = shiftCaps (d + e) cs.
Proof.
  unfold shiftCaps. rewrite List.map_map. apply List.map_ext.
  intros [n [b c]]; cbn. do 2 f_equal; lia.
Qed.

Lemma shiftCaps_0 (cs : list (nat * (nat * nat))) : shiftCaps 0 cs = cs.
Proof.
  unfold shiftCaps. rewrite <- (List.map_id cs) at 2. apply List.map_ext.
  now intros [n [b c]].
Qed.

Lemma orElse_Some {A : Type} (x y : option A) (a : A) :
  orElse x y = Some a -> x = Some a \/ (x = None /\ y = Some a).
Proof. destruct x; cbn; intros; [left | right]; auto. Qed.

Lemma after_nil (st : mstate) : after st [] (rest st) [] = st.
Proof. destruct st. unfold after. cbn. now rewrite Nat.add_0_r. Qed.

Lemma after_after (st : mstate) (w1 f1 w2 f2 : list ascii) (c1 c2 : list (nat * (nat * nat))) :
  after (after st w1 f1 c1) w2 f2 c2 =
  after st (w1 ++ w2) f2 (shiftCaps (List.length w1) c2 ++ c1).
Proof.
  unfold after. cbn.
  rewrite List.length_app, lastOr_app, shiftCaps_app, shiftCaps_shiftCaps,
    Nat.add_assoc, <- app_assoc.
  reflexivity.
Qed.

Lemma starLoop_sound {A : Type} (icase greedy : bool) (r : regex)
    (m : mstate -> (mstate -> option A) -> option A) (k : mstate -> option A) :
  soundFor icase r m ->
  forall fuel st a, starLoop m greedy k fuel st = Some a ->
    exists w f cs, rest st = w ++ f /\ den icase (Star greedy r) (prev st) w f cs /\
                   k (after st w f cs) = Some a.
Proof.
  intros Hm. induction fuel as [|fuel IH]; intros st a Hl; cbn [starLoop] in Hl.
  - exists [], (rest st), []. rewrite after_nil. repeat split; [constructor | exact Hl].
  - assert (Hnil : k st = Some a ->
                   exists w f cs, rest st = w ++ f /\
                     den icase (Star greedy r) (prev st) w f cs /\
                     k (after st w f cs) = Some a).
    { intros Hk. exists [], (rest st), []. rewrite after_nil.
      repeat split; [constructor | exact Hk]. }
    assert (Hagain : m st (fun st' => if (pos st <? pos st')%nat
                                      then starLoop m greedy k fuel st' else None) = Some a ->
                   exists w f cs, rest st = w ++ f /\
                     den icase (Star greedy r) (prev st) w f cs /\
                     k (after st w f cs) = Some a).
    { intros Ha. apply Hm in Ha as (w1 & f1 & c1 & E1 & D1 & K1).
      destruct (Nat.ltb_spec (pos st) (pos (after st w1 f1 c1))) as [Hlt|]; [|discriminate].
      apply IH in K1 as (w2 & f2 & c2 & E2 & D2 & K2).
      cbn [after rest prev pos] in *.
      exists (w1 ++ w2), f2, (shiftCaps (List.length w1) c2 ++ c1).
      rewrite <- (after_after st w1 f1 w2 f2 c1 c2). subst f1. rewrite <- app_assoc.
      repeat split; [exact E1 | | exact K2].
      apply den_star_cons; auto. intros ->. cbn in Hlt. lia. }
    destruct greedy; apply orElse_Some in Hl as [Hl|[_ Hl]]; auto.
Qed.

Theorem rmatch_sound {A : Type} (icase : bool) (r : regex) :
  soundFor icase r (@rmatch A icase r).
Proof.
  induction r as [|a| |negated items|r1 IH1 r2 IH2|r1 IH1 r2 IH2|greedy r IH|n r IH| |];
    intros st k res Hm; cbn [rmatch] in Hm.
  - exists [], (rest st), []. rewrite after_nil. repeat split; [constructor | exact Hm].
  - destruct (rest st) as [|c t] eqn:Er; [discriminate|].
    destruct (sameChar icase a c) eqn:Ec; [|discriminate].
    exists [c], t, []. repeat split; [now constructor|].
    unfold after, step in *. cbn. now rewrite Nat.add_1_r.
  - destruct (rest st) as [|c t] eqn:Er; [discriminate|].
    destruct (isLineTerminator c) eqn:Ec; [discriminate|].
    exists [c], t, []. repeat split; [now constructor|].
    unfold after, step in *. cbn. now rewrite Nat.add_1_r.
  - destruct (rest st) as [|c t] eqn:Er; [discriminate|].
    destruct (classMatches icase negated items c) eqn:Ec; [|discriminate].
    exists [c], t, []. repeat split; [now constructor|].
    unfold after, step in *. cbn. now rewrite Nat.add_1_r.
  - apply IH1 in Hm as (w1 & f1 & c1 & E1 & D1 & K1).
    apply IH2 in K1 as (w2 & f2 & c2 & E2 & D2 & K2).
    cbn [after rest prev] in E2, D2.
    exists (w1 ++ w2), f2, (shiftCaps (List.length w1) c2 ++ c1).
    rewrite <- (after_after st w1 f1 w2 f2 c1 c2). subst f1. rewrite <- app_assoc.
    repeat split; [exact E1 | now constructor | exact K2].
  - apply orElse_Some in Hm as [Hm|[_ Hm]].
    + apply IH1 in Hm as (w & f & cs & E & D & K). exists w, f, cs.
      repeat split; [exact E | now apply den_alt_l | exact K].
    + apply IH2 in Hm as (w & f & cs & E & D & K). exists w, f, cs.
      repeat split; [exact E | now apply den_alt_r | exact K].
  - eapply starLoop_sound; eauto.
  - apply IH in Hm as (w & f & cs & E & D & K).
    exists w, f, ((n, (0%nat, List.length w)) :: cs).
    repeat split; [exact E | now constructor|].
    unfold after in *. cbn [pos prev rest caps shiftCaps List.map fst snd app] in *.
    now rewrite Nat.add_0_r.
  - destruct (xorb _ _) eqn:Ex; [|discriminate].
    exists [], (rest st), []. rewrite after_nil. repeat split; [now constructor | exact Hm].
  - destruct (rest st) eqn:Er; [|discriminate].
    exists [], [], [].
    assert (Ea : after st [] [] [] = st) by (rewrite <- (after_nil st) at 2; now rewrite Er).
    rewrite Ea. split; [reflexivity|]. split; [constructor | exact Hm].
Qed.

(** A match at a position is a word that the pattern matches, with its
    groups. *)
Theorem match_at_sound (icase : bool) (r : regex) (p : option ascii) (s : list ascii)
    (len : nat) (cs : list (nat * (nat * nat))) :
  match_at icase r p s = Some (len, cs) ->
  exists w f, s = w ++ f /\ len = List.length w /\ den icase r p w f cs.
Proof.
  unfold match_at. intros Hm.
  apply rmatch_sound in Hm as (w & f & cs' & E & D & K).
  cbn in E, D, K. injection K as <- <-.
  exists w, f. rewrite shiftCaps_0, app_nil_r. auto.
Qed.

(** *** Reading a match back *)

Section Inversion.
Variable icase : bool.

Lemma den_seq_inv r1 r2 p w f cs :
  den icase (Seq r1 r2) p w f cs ->
  exists w1 w2 c1 c2,
    w = w1 ++ w2 /\ cs = shiftCaps (List.length w1) c2 ++ c1 /\
    den icase r1 p w1 (w2 ++ f) c1 /\ den icase r2 (lastOr p w1) w2 f c2.
Proof. intros H. inversion H; subst. eauto 10. Qed.

Lemma den_eps_inv p w f cs : den icase Eps p w f cs -> w = [] /\ cs = [].
Proof. intros H. inversion H; subst. auto. Qed.

Lemma den_chr_inv a p w f cs :
  den icase (Chr a) p w f cs -> exists c, w = [c] /\ cs = [] /\ sameChar icase a c = true.
Proof. intros H. inversion H; subst. eauto. Qed.

Lemma den_cls_inv negated items p w f cs :
  den icase (Cls negated items) p w f cs ->
  exists c, w = [c] /\ cs = [] /\ classMatches icase negated items c = true.
Proof. intros H. inversion H; subst. eauto. Qed.

Lemma den_group_inv n r p w f cs :
  den icase (Group n r) p w f cs ->
  exists c', cs = (n, (0%nat, List.length w)) :: c' /\ den icase r p w f c'.
Proof. intros H. inversion H; subst. eauto. Qed.

Lemma den_wordb_inv p w f cs :
  den icase WordB p w f cs ->
  w = [] /\ cs = [] /\ xorb (isWordOpt p) (isWordOpt (List.hd_error f)) = true.
Proof. intros H. inversion H; subst. auto. Qed.

Lemma den_lit_inv l p w f cs :
  den icase (Lit l) p w f cs -> cs = [] /\ sameText icase l w.
Proof.
  revert p w f cs; induction l as [|a l IH]; intros p w f cs H.
  - apply den_eps_inv in H as [-> ->]. split; [reflexivity | constructor].
  - destruct l as [|b l].
    + apply den_chr_inv in H as (c & -> & -> & Hc). split; [reflexivity|].
      repeat constructor. exact Hc.
    + change (Lit (a :: b :: l)) with (Seq (Chr a) (Lit (b :: l))) in H.
      apply den_seq_inv in H as (w1 & w2 & c1 & c2 & -> & -> & H1 & H2).
      apply den_chr_inv in H1 as (c & -> & -> & Hc).
      apply IH in H2 as [-> H2]. split; [reflexivity|].
      constructor; assumption.
Qed.

Lemma den_star_cls_inv greedy negated items p w f cs :
  den icase (Star greedy (Cls negated items)) p w f cs ->
  cs = [] /\ List.Forall (fun c => classMatches icase negated items c = true) w.
Proof.
  intros H. remember (Star greedy (Cls negated items)) as r eqn:Er.
  induction H; try discriminate.
  - split; [reflexivity | constructor].
  - injection Er as -> ->.
    apply den_cls_inv in H0 as (c & -> & -> & Hc).
    destruct (IHden2 eq_refl) as [-> Hw]. split; [reflexivity|].
    constructor; assumption.
Qed.

Lemma den_groupFree r p w f cs :
  groupFree r = true -> den icase r p w f cs -> cs = [].
Proof.
  intros Hg H. induction H; cbn [groupFree] in Hg; try reflexivity;
    try (apply andb_true_iff in Hg as [Hg1 Hg2]); auto; try discriminate.
  - rewrite IHden1, IHden2 by assumption. reflexivity.
  - rewrite IHden1, IHden2 by assumption. reflexivity.
Qed.
End Inversion.

Lemma sameText_length (icase : bool) (a b : list ascii) :
  sameText icase a b -> List.length a = List.length b.
Proof. induction 1; cbn; congruence. Qed.

(** The text of a group, read from its extent. *)
Lemma groupText_spec (s a g b : list ascii) (cs : list (nat * (nat * nat))) (n x y : nat) :
  s = a ++ g ++ b -> lookupCap n cs = Some (x, y) ->
  x = List.length a -> y = (List.length a + List.length g)%nat ->
  groupText s cs n = g.
Proof.
  intros -> Hc -> ->. unfold groupText. rewrite Hc.
  replace (List.length a + List.length g - List.length a)%nat with (List.length g) by lia.
  rewrite List.skipn_app, List.skipn_all, Nat.sub_diag, List.skipn_O. cbn [app].
  rewrite List.firstn_app, Nat.sub_diag, List.firstn_all, List.firstn_O.
  now rewrite app_nil_r.
Qed.

(** *** The pieces of a scan *)

Section ScanFacts.
Variable icase : bool.
Variable r : regex.

Lemma flat_map_Keep (subst : list ascii -> list ascii -> (nat -> list ascii) -> list ascii -> list ascii)
    (s : list ascii) :
  List.flat_map (render subst) (List.map Keep s) = s.
Proof. induction s as [|c s IH]; cbn; congruence. Qed.

(** The pieces of a scan, each match put back as it was, are the input. *)
Lemma scan_input (global : bool) (s rpre : list ascii) (skip : nat) :
  List.flat_map (render asItWas) (scan icase r global rpre s skip) = List.skipn skip s.
Proof.
  revert rpre skip; induction s as [|c t IH]; intros rpre skip.
  - destruct skip; cbn; [|reflexivity].
    destruct (match_at icase r (List.hd_error rpre) []) as [[len cs]|]; [|reflexivity].
    cbn. rewrite List.firstn_nil. destruct global; cbn; [reflexivity|].
    now rewrite List.skipn_nil.
  - destruct skip as [|n]; cbn [scan]; [|now rewrite IH].
    destruct (match_at icase r (List.hd_error rpre) (c :: t)) as [[len cs]|];
      [|cbn; now rewrite IH].
    cbn [List.flat_map render asItWas]. destruct global.
    + destruct len as [|n]; cbn [List.flat_map render]; rewrite IH; unfold asItWas.
      * reflexivity.
      * cbn [List.firstn List.skipn app]. f_equal. apply List.firstn_skipn.
    + rewrite flat_map_Keep. apply List.firstn_skipn.
Qed.

(** Each match of a scan is a word that the pattern matches, and its
    groups are read from the extents of that match. *)
Lemma scan_match_den (global : bool) (s rpre : list ascii) (skip : nat)
    (rpre' matched : list ascii) (groups : nat -> list ascii) (post : list ascii) :
  In (Match rpre' matched groups post) (scan icase r global rpre s skip) ->
  exists cs, den icase r (List.hd_error rpre') matched post cs /\
             groups = groupText (matched ++ post) cs.
Proof.
  revert rpre skip; induction s as [|c t IH]; intros rpre skip Hin.
  - destruct skip; cbn in Hin; [|destruct Hin].
    destruct (match_at icase r (List.hd_error rpre) []) as [[len cs]|] eqn:Em;
      [|destruct Hin].
    apply match_at_sound in Em as (w & f & E & -> & D).
    symmetry in E. apply app_eq_nil in E as [-> ->].
    destruct Hin as [Hin|Hin].
    + injection Hin as <- <- <- <-. exists cs. split; [exact D | reflexivity].
    + destruct global; cbn in Hin; destruct Hin.
  - destruct skip as [|n]; cbn [scan] in Hin; [|eauto].
    destruct (match_at icase r (List.hd_error rpre) (c :: t)) as [[len cs]|] eqn:Em.
    + pose proof Em as Em'.
      apply match_at_sound in Em as (w & f & E & -> & D).
      destruct Hin as [Hin|Hin].
      * injection Hin as <- <- <- <-. exists cs. rewrite E.
        rewrite List.firstn_app, Nat.sub_diag, List.firstn_all, List.firstn_O, app_nil_r.
        rewrite List.skipn_app, Nat.sub_diag, List.skipn_all, List.skipn_O.
        split; [exact D | reflexivity].
      * destruct global.
        -- destruct (List.length w); [destruct Hin as [Hin|Hin]; [discriminate|]|]; eauto.
        -- apply in_map_iff in Hin as (x & Hx & _). discriminate.
    + destruct Hin as [Hin|Hin]; [discriminate | eauto].
Qed.
End ScanFacts.

(** ** The rewriting of a matched element *)

Ltac all_chars c := destruct c as [[] [] [] [] [] [] [] []]; vm_compute.

Lemma quote_chars (c : ascii) :
  classMatches true false [CChar dq; CChar "'"%char] c = true -> c = dq \/ c = "'"%char.
Proof. all_chars c; intros; try discriminate; auto. Qed.

Lemma not_greater_char (c : ascii) :
  classMatches true true [CChar ">"%char] c = true -> c <> ">"%char.
Proof. all_chars c; intros; discriminate. Qed.

Lemma greater_char (c : ascii) : sameChar true ">"%char c = true -> c = ">"%char.
Proof. all_chars c; intros; try discriminate; auto. Qed.

Lemma not_quote_char (c : ascii) :
  classMatches true true [CChar dq; CChar "'"%char] c = true -> c <> dq /\ c <> "'"%char.
Proof. all_chars c; intros; split; discriminate. Qed.

(** Without the [g] flag the scan keeps the input, or keeps what is before
    and after the first match. *)
Lemma scan_first (icase : bool) (r : regex) (s rpre : list ascii) :
  scan icase r false rpre s 0 = List.map Keep s \/
  exists pre matched post cs,
    s = pre ++ matched ++ post /\
    den icase r (List.hd_error (List.rev pre ++ rpre)) matched post cs /\
    scan icase r false rpre s 0 =
      List.map Keep pre
      ++ Match (List.rev pre ++ rpre) matched (groupText (matched ++ post) cs) post
         :: List.map Keep post.
Proof.
  revert rpre; induction s as [|c t IH]; intros rpre; cbn [scan].
  - destruct (match_at icase r (List.hd_error rpre) []) as [[len cs]|] eqn:Em; [|now left].
    right. apply match_at_sound in Em as (w & f & E & -> & D).
    symmetry in E. apply app_eq_nil in E as [-> ->].
    exists [], [], [], cs. repeat split; auto.
  - destruct (match_at icase r (List.hd_error rpre) (c :: t)) as [[len cs]|] eqn:Em.
    + right. apply match_at_sound in Em as (w & f & E & -> & D).
      exists [], w, f, cs. rewrite E.
      rewrite List.firstn_app, Nat.sub_diag, List.firstn_all, List.firstn_O, app_nil_r.
      rewrite List.skipn_app, Nat.sub_diag, List.skipn_all, List.skipn_O.
      repeat split; auto.
    + destruct (IH (c :: rpre)) as [E|(pre & m & post & cs & E & D & Es)].
      * left. cbn. now rewrite E.
      * right. exists (c :: pre), m, post, cs. cbn [List.rev].
        rewrite <- app_assoc. cbn [app]. rewrite Es, E. repeat split; auto.
Qed.

(** A replacement string without a dollar stands for itself. *)
Lemma getSubstitution_plain (template : list ascii) :
  ~ In "$"%char template ->
  forall fuel ngroups rpre matched groups post,
    (List.length template < fuel)%nat ->
    getSubstitution fuel ngroups template rpre matched groups post = template.
Proof.
  induction template as [|c t IH]; intros Hd fuel ngroups rpre matched groups post Hf;
    (destruct fuel as [|fuel]; [cbn in Hf; lia|]); cbn [getSubstitution]; [reflexivity|].
  assert (Hc : c <> "$"%char) by (intros ->; apply Hd; now left).
  assert (Ht : ~ In "$"%char t) by (intros H; apply Hd; now right).
  cbn in Hf.
  destruct c as [[] [] [] [] [] [] [] []]; try congruence;
    rewrite IH by (auto; lia); reflexivity.
Qed.

Lemma replaceString_first (icase : bool) (r : regex) (ngroups : nat)
    (replacement s : list ascii) :
  ~ In "$"%char replacement ->
  replaceString icase false r ngroups replacement s = s \/
  exists pre matched post cs,
    s = pre ++ matched ++ post /\
    den icase r (List.hd_error (List.rev pre)) matched post cs /\
    replaceString icase false r ngroups replacement s = pre ++ replacement ++ post.
Proof.
  intros Hd. unfold replaceString.
  destruct (scan_first icase r s []) as [E|(pre & m & post & cs & E & D & Es)].
  - left. rewrite E. apply flat_map_Keep.
  - right. exists pre, m, post, cs. rewrite app_nil_r in D. repeat split; auto.
    rewrite Es, List.flat_map_app. cbn [List.flat_map render].
    rewrite !flat_map_Keep, getSubstitution_plain by (auto; lia). reflexivity.
Qed.

Ltac seq_inv H w1 w2 c1 c2 H1 :=
  apply den_seq_inv in H as (w1 & w2 & c1 & c2 & -> & -> & H1 & H).

Ltac assoc_eq :=
  repeat first [rewrite <- app_assoc | progress cbn [app str list_ascii_of_string]];
  reflexivity.

Ltac cap_eq :=
  cbn; repeat first [rewrite List.length_app | progress cbn [List.length app]];
  apply f_equal; apply f_equal2; lia.

(** A match of the pattern of an image element, read back: the tag, the
    attributes before [src], the attribute name, the quoted value made of a
    path and the name and extension looked for, the attributes after, and
    the closing bracket; the first and third groups are the attributes
    before and after. *)
Lemma imgPattern_inv (nameRe : regex) (ext w f : list ascii)
    (pv : option ascii) (cs : list (nat * (nat * nat))) :
  groupFree nameRe = true ->
  den true (HtmlSrcsetUpdater.imgPattern nameRe ext) pv w f cs ->
  exists tag before attr q1 srcPath target q2 after,
    w = tag ++ before ++ attr ++ [q1] ++ srcPath ++ target ++ [q2] ++ after ++ str ">" /\
    sameText true (str "<img") tag /\
    sameText true (str "src=") attr /\
    (q1 = dq \/ q1 = "'"%char) /\ (q2 = dq \/ q2 = "'"%char) /\
    List.Forall (fun c => c <> ">"%char) before /\
    List.Forall (fun c => c <> dq /\ c <> "'"%char) srcPath /\
    (exists pn fn, den true (Seq nameRe (Lit ext)) pn target fn []) /\
    List.Forall (fun c => c <> ">"%char) after /\
    groupText (w ++ f) cs 1 = before /\
    groupText (w ++ f) cs 2 = srcPath /\
    groupText (w ++ f) cs 3 = after.
Proof.
  intros Hg H. unfold HtmlSrcsetUpdater.imgPattern in H. cbn [seqs] in H.
  seq_inv H tag w1 c1 c1' Htag.
  seq_inv H wb w2 c2 c2' Hb.
  seq_inv H bef w3 c3 c3' Hbef.
  seq_inv H attr w4 c4 c4' Hattr.
  seq_inv H wq1 w5 c5 c5' Hq1.
  seq_inv H srcPath w6 c6 c6' Hsrc.
  seq_inv H nameText w7 c7 c7' Hname.
  seq_inv H extText w8 c8 c8' Hext.
  rewrite <- app_assoc in Hname.
  pose proof (den_seq true nameRe (Lit ext) _ nameText extText (w8 ++ f) _ _ Hname Hext)
    as Htarget.
  seq_inv H wq2 w9 c9 c9' Hq2.
  seq_inv H aft w10 c10 c10' Haft.
  apply den_lit_inv in Htag as [-> Htag].
  apply den_wordb_inv in Hb as (-> & -> & _).
  apply den_group_inv in Hbef as (cb & -> & Hbef).
  apply den_star_cls_inv in Hbef as [-> Hbef].
  apply den_lit_inv in Hattr as [-> Hattr].
  apply den_cls_inv in Hq1 as (q1 & -> & -> & Hq1).
  apply den_group_inv in Hsrc as (cp & -> & Hsrc).
  apply den_star_cls_inv in Hsrc as [-> Hsrc].
  pose proof (den_groupFree true _ _ _ _ _ Hg Hname) as ->.
  pose proof (den_lit_inv _ _ _ _ _ _ Hext) as [-> Hext'].
  cbn [shiftCaps List.map app] in Htarget.
  apply den_cls_inv in Hq2 as (q2 & -> & -> & Hq2).
  apply den_group_inv in Haft as (ca & -> & Haft).
  apply den_star_cls_inv in Haft as [-> Haft].
  apply den_chr_inv in H as (g & -> & -> & Hgt). apply greater_char in Hgt as ->.
  exists tag, bef, attr, q1, srcPath, (nameText ++ extText), q2, aft.
  cbn [app]. repeat split.
  - assoc_eq.
  - exact Htag.
  - exact Hattr.
  - now apply quote_chars.
  - now apply quote_chars.
  - eapply List.Forall_impl; [|exact Hbef]. apply not_greater_char.
  - eapply List.Forall_impl; [|exact Hsrc]. apply not_quote_char.
  - eauto.
  - eapply List.Forall_impl; [|exact Haft]. apply not_greater_char.
  - apply (groupText_spec _ tag bef
             (attr ++ [q1] ++ srcPath ++ (nameText ++ extText) ++ [q2] ++ aft ++ str ">" ++ f)
             _ 1 (List.length tag) (List.length tag + List.length bef)%nat);
      [assoc_eq | cap_eq | reflexivity | reflexivity].
  - apply (groupText_spec _ (tag ++ bef ++ attr ++ [q1]) srcPath
             ((nameText ++ extText) ++ [q2] ++ aft ++ str ">" ++ f)
             _ 2 (List.length (tag ++ bef ++ attr ++ [q1]))
             (List.length (tag ++ bef ++ attr ++ [q1]) + List.length srcPath)%nat);
      [assoc_eq | cap_eq | reflexivity | reflexivity].
  - apply (groupText_spec _
             (tag ++ bef ++ attr ++ [q1] ++ srcPath ++ (nameText ++ extText) ++ [q2]) aft
             (str ">" ++ f) _ 3
             (List.length (tag ++ bef ++ attr ++ [q1] ++ srcPath ++ (nameText ++ extText) ++ [q2]))
             (List.length (tag ++ bef ++ attr ++ [q1] ++ srcPath ++ (nameText ++ extText) ++ [q2])
              + List.length aft)%nat);
      [assoc_eq | cap_eq | reflexivity | reflexivity].
Qed.

Lemma space_char_class (c : ascii) :
  classMatches true false [CSpace] c = true -> isSpace c = true.
Proof. unfold classMatches. cbn. now rewrite orb_false_r. Qed.

(** A match of the pattern of a quoted srcset attribute, read back. *)
Lemma srcsetAttribute_inv (pv : option ascii) (a f : list ascii)
    (cs : list (nat * (nat * nat))) :
  den true HtmlSrcsetUpdater.re_srcsetAttribute pv a f cs ->
  exists sp nm ws1 ws2 qa value qb,
    a = sp :: nm ++ ws1 ++ str "=" ++ ws2 ++ [qa] ++ value ++ [qb] /\
    isSpace sp = true /\ sameText true (str "srcset") nm /\
    List.Forall (fun c => isSpace c = true) ws1 /\
    List.Forall (fun c => isSpace c = true) ws2 /\
    (qa = dq \/ qa = "'"%char) /\ (qb = dq \/ qb = "'"%char) /\
    List.Forall (fun c => c <> dq /\ c <> "'"%char) value.
Proof.
  intros H. unfold HtmlSrcsetUpdater.re_srcsetAttribute in H. cbn [seqs] in H.
  seq_inv H wsp w1 c1 c1' Hsp.
  seq_inv H nm w2 c2 c2' Hnm.
  seq_inv H ws1 w3 c3 c3' Hws1.
  seq_inv H weq w4 c4 c4' Heq.
  seq_inv H ws2 w5 c5 c5' Hws2.
  seq_inv H wqa w6 c6 c6' Hqa.
  seq_inv H val w7 c7 c7' Hval.
  apply den_cls_inv in Hsp as (sp & -> & -> & Hsp).
  apply den_lit_inv in Hnm as [-> Hnm].
  apply den_star_cls_inv in Hws1 as [-> Hws1].
  apply den_chr_inv in Heq as (e & -> & -> & He).
  apply den_star_cls_inv in Hws2 as [-> Hws2].
  apply den_cls_inv in Hqa as (qa & -> & -> & Hqa).
  apply den_star_cls_inv in Hval as [-> Hval].
  apply den_cls_inv in H as (qb & -> & -> & Hqb).
  assert (e = "="%char) as -> by (revert He; all_chars e; intros; try discriminate; auto).
  exists sp, nm, ws1, ws2, qa, val, qb. repeat split.
  - now apply space_char_class.
  - exact Hnm.
  - eapply List.Forall_impl; [|exact Hws1]. apply space_char_class.
  - eapply List.Forall_impl; [|exact Hws2]. apply space_char_class.
  - now apply quote_chars.
  - now apply quote_chars.
  - eapply List.Forall_impl; [|exact Hval]. apply not_quote_char.
Qed.

Lemma find_last_only {A : Type} (f : A -> bool) (l : list A) (x : A) :
  List.forallb (fun y => negb (f y)) l = true -> f x = true ->
  List.find f (l ++ [x]) = Some x.
Proof.
  intros Hl Hx. induction l as [|y l IH]; cbn in *; [now rewrite Hx|].
  apply andb_true_iff in Hl as [Hy Hl]. apply negb_true_iff in Hy.
  rewrite Hy. auto.
Qed.

(** The generated images of a plan: their widths never decrease, and the
    image of the type [original] is the last one. *)
Lemma generated_of_plan (imagePath : list ascii) (w : Z) :
  non_decreasing (List.map img_width (List.map (imageOf imagePath) (calculate w))) /\
  findOriginal (List.map (imageOf imagePath) (calculate w))
    = Some (imageOf imagePath (originalEntry w)).
Proof.
  split.
  - rewrite List.map_map. cbn [imageOf img_width]. apply plan_non_decreasing.
  - unfold findOriginal.
    assert (E : calculate w = non_originals (calculate w) ++ [originalEntry w]).
    { rewrite non_originals_calculate, calculate_spec_plan. unfold spec_plan.
      now rewrite <- app_assoc. }
    rewrite E, List.map_app. cbn [List.map]. apply find_last_only; [|reflexivity].
    rewrite List.forallb_forall. intros img Hin.
    apply in_map_iff in Hin as (s & <- & Hs). unfold non_originals in Hs.
    apply List.filter_In in Hs as [_ Hs]. exact Hs.
Qed.


Lemma no_dollar (s : list ascii) :
  List.existsb (Ascii.eqb "$"%char) s = false -> ~ In "$"%char s.
Proof.
  intros He Hin.
  assert (List.existsb (Ascii.eqb "$"%char) s = true)
    by (apply List.existsb_exists; exists "$"%char; split; [exact Hin | reflexivity]).
  congruence.
Qed.



(** An element that has a srcset attribute keeps its [src]. *)
Example element_with_srcset_keeps_src :
  Demo.rewritePage "a" (js "<img src=`img/a.jpg` srcset=`old.jpg 1w`>")
  = Some (Some (js "<img src=`img/a.jpg` srcset=`img/128/a-128w.avif 128w, img/256/a-256w.avif 256w, img/original/a.avif 300w`>", true)).
Proof. vm_compute. reflexivity. Qed.

(** ** Rewriting a page twice *)

(** C4 fails on the code. The image [dist/img/o'brien.jpg] has an apostrophe
    in its name; the srcset value written for it holds apostrophes, which
    the pattern of the srcset attribute takes for the end of the value.
    Each rewriting of the page puts the whole value in front of what the
    first apostrophe cut off: rewriting the page a second time gives a
    longer page. *)
Theorem html_rewrite_twice_differs :
  exists once twice,
    Demo.rewritePage "o'brien" (js "<img src=`img/o'brien.jpg`>") = Some (Some (once, true)) /\
    Demo.rewritePage "o'brien" once = Some (Some (twice, true)) /\
    twice <> once /\
    (List.length once < List.length twice)%nat.
Proof.
  eexists _, _. split; [vm_compute; reflexivity|]. split; [vm_compute; reflexivity|].
  split; [vm_compute; discriminate | vm_compute; lia].
Qed.

(** The same happens without an apostrophe when the element has an upper-case
    SRCSET attribute and is first matched by the last patterns: the test for
    an existing attribute looks for lower case only, the replacement for
    either case. *)
Example html_rewrite_twice_differs_upper_case :
  exists once twice,
    Demo.rewritePage "foo" (js "<img SRCSET=`x` src=`img/foo.avif`>") = Some (Some (once, true)) /\
    Demo.rewritePage "foo" once = Some (Some (twice, true)) /\
    once = js "<img SRCSET=`x` src=`img/original/foo.avif` srcset=`img/128/foo-128w.avif 128w, img/256/foo-256w.avif 256w, img/original/foo.avif 300w`>" /\
    twice = js "<img srcset=`img/128/foo-128w.avif 128w, img/256/foo-256w.avif 256w, img/original/foo.avif 300w` src=`img/original/foo.avif` srcset=`img/128/foo-128w.avif 128w, img/256/foo-256w.avif 256w, img/original/foo.avif 300w`>".
Proof.
  eexists _, _. split; [vm_compute; reflexivity|]. split; [vm_compute; reflexivity|].
  split; [vm_compute; reflexivity | vm_compute; reflexivity].
Qed.

(** On the page of the demonstration directory a second rewriting changes
    nothing. *)
Example html_rewrite_twice_same :
  exists once,
    Demo.rewritePage "a" Demo.page = Some (Some (once, true)) /\
    Demo.rewritePage "a" once = Some (Some (once, true)).
Proof. eexists. split; [vm_compute; reflexivity | vm_compute; reflexivity]. Qed.

(** ** Literal substitution *)

Lemma startsWith_app (p x : list ascii) : startsWith p (p ++ x) = true.
Proof. induction p as [|a p IH]; cbn; [reflexivity|]. now rewrite Ascii.eqb_refl. Qed.

Lemma startsWith_split (p s : list ascii) :
  startsWith p s = true -> exists x, s = p ++ x.
Proof.
  revert s; induction p as [|a p IH]; intros s H; [now exists s|].
  destruct s as [|c s]; [discriminate|]. cbn in H.
  apply andb_true_iff in H as [Hc H]. apply Ascii.eqb_eq in Hc as ->.
  destruct (IH s H) as (x & ->). now exists x.
Qed.

Lemma startsWith_longer (p x y : list ascii) :
  (List.length p <= List.length x)%nat -> startsWith p (x ++ y) = startsWith p x.
Proof.
  revert x; induction p as [|a p IH]; intros x Hl; [reflexivity|].
  destruct x as [|c x]; [cbn in Hl; lia|]. cbn in *. rewrite IH by lia. reflexivity.
Qed.

Lemma includes_cons (c : ascii) (s p : list ascii) :
  includes (c :: s) p = startsWith p (c :: s) || includes s p.
Proof. reflexivity. Qed.

Lemma includes_app_r (a b p : list ascii) :
  includes b p = true -> includes (a ++ b) p = true.
Proof.
  intros H. induction a as [|c a IH]; [exact H|].
  cbn [app]. rewrite includes_cons, IH. apply orb_true_r.
Qed.

Lemma includes_app_false_r (a b p : list ascii) :
  includes (a ++ b) p = false -> includes b p = false.
Proof.
  intros H. destruct (includes b p) eqn:E; [|reflexivity].
  now rewrite (includes_app_r a b p E) in H.
Qed.

Lemma includes_startsWith (s p : list ascii) :
  startsWith p s = true -> includes s p = true.
Proof. intros H. destruct s; cbn [includes]; now rewrite H. Qed.

Lemma includes_prefix (p x : list ascii) : includes (p ++ x) p = true.
Proof. apply includes_startsWith, startsWith_app. Qed.

Section ReplaceAllFacts.
Variable oldRef newRef : list ascii.
Hypothesis newRef_plain : ~ In "$"%char newRef.

Lemma substitution_plain (rpre post : list ascii) :
  getSubstitution (S (List.length newRef)) 0 newRef rpre oldRef (fun _ => []) post = newRef.
Proof. apply getSubstitution_plain; [exact newRef_plain | lia]. Qed.

(** The text before the position plays no part. *)
Lemma replaceAll_from_rpre (s rpre rpre' : list ascii) (skip : nat) :
  replaceAll_from oldRef newRef rpre s skip = replaceAll_from oldRef newRef rpre' s skip.
Proof.
  revert rpre rpre' skip; induction s as [|c t IH]; intros rpre rpre' skip;
    destruct skip as [|n]; cbn [replaceAll_from]; auto.
  - now rewrite !substitution_plain.
  - rewrite !substitution_plain.
    destruct (startsWith oldRef (c :: t)); [destruct (List.length oldRef)|];
      f_equal; auto. f_equal. auto.
Qed.

Lemma replaceAll_from_skip (x b rpre : list ascii) :
  replaceAll_from oldRef newRef rpre (x ++ b) (List.length x) = replaceAll b oldRef newRef.
Proof.
  revert rpre; induction x as [|c x IH]; intros rpre; cbn [app List.length].
  - destruct b; apply replaceAll_from_rpre.
  - cbn [replaceAll_from]. apply IH.
Qed.

(** Without an occurrence the text stays. *)
Lemma replaceAll_none (s : list ascii) :
  includes s oldRef = false -> replaceAll s oldRef newRef = s.
Proof.
  unfold replaceAll. generalize (@nil ascii) as rpre.
  induction s as [|c t IH]; intros rpre H; cbn [replaceAll_from].
  - cbn in H. rewrite orb_false_r in H. now rewrite H.
  - rewrite includes_cons in H. apply orb_false_iff in H as [H1 H2].
    rewrite H1. f_equal. now apply IH.
Qed.

(** Where the old reference occurred the new one now stands. *)
Lemma replaceAll_includes_new (s : list ascii) :
  includes s oldRef = true -> includes (replaceAll s oldRef newRef) newRef = true.
Proof.
  unfold replaceAll. generalize (@nil ascii) as rpre.
  induction s as [|c t IH]; intros rpre H; cbn [replaceAll_from].
  - cbn in H. rewrite orb_false_r in H. rewrite H, substitution_plain.
    apply includes_prefix.
  - rewrite includes_cons in H.
    destruct (startsWith oldRef (c :: t)) eqn:Es.
    + rewrite substitution_plain. apply includes_prefix.
    + cbn in H. rewrite includes_cons, IH by exact H. apply orb_true_r.
Qed.
End ReplaceAllFacts.

Lemma replaceAll_at_occurrence (o : ascii) (old' newRef rpre b : list ascii) :
  ~ In "$"%char newRef ->
  replaceAll_from (o :: old') newRef rpre ((o :: old') ++ b) 0
  = newRef ++ replaceAll b (o :: old') newRef.
Proof.
  intros Hd. pose proof (startsWith_app (o :: old') b) as Es.
  cbn [app] in *. cbn [replaceAll_from]. rewrite Es.
  rewrite (substitution_plain (o :: old') newRef Hd). f_equal.
  cbn [List.length]. apply replaceAll_from_skip. exact Hd.
Qed.

(** The first occurrence is replaced, and the search goes on after it. *)
Lemma replaceAll_first (oldRef newRef a b : list ascii) :
  ~ In "$"%char newRef ->
  oldRef <> [] ->
  includes (a ++ List.removelast oldRef) oldRef = false ->
  replaceAll (a ++ oldRef ++ b) oldRef newRef = a ++ newRef ++ replaceAll b oldRef newRef.
Proof.
  intros Hd Hne. unfold replaceAll at 1. generalize (@nil ascii) as rpre.
  induction a as [|c a IH]; intros rpre H; cbn [app].
  - destruct oldRef as [|o old']; [congruence|]. now apply replaceAll_at_occurrence.
  - cbn [replaceAll_from]. cbn [app] in H. rewrite includes_cons in H.
    apply orb_false_iff in H as [H1 H2].
    assert (Hs : startsWith oldRef (c :: a ++ oldRef ++ b) = false).
    { rewrite <- H1.
      rewrite (app_removelast_last "000"%char Hne) at 2.
      rewrite <- app_assoc.
      change (c :: a ++ List.removelast oldRef ++ ?x)
        with ((c :: a) ++ List.removelast oldRef ++ x).
      rewrite app_assoc. apply startsWith_longer.
      cbn [List.length]. rewrite List.length_app.
      rewrite (app_removelast_last "000"%char Hne) at 1.
      rewrite List.length_app. cbn. lia. }
    rewrite Hs. f_equal. now apply IH.
Qed.

(** ** Format tokens after the font pass *)

Lemma compat_startsWith (p x rest : list ascii) :
  startsWith p (x ++ rest) = true -> compat x p = true.
Proof.
  revert x; induction p as [|b p IH]; intros x H; [now destruct x|].
  destruct x as [|a x]; [reflexivity|]. cbn in *.
  apply andb_true_iff in H as [Hc H]. rewrite Ascii.eqb_sym, Hc. cbn. now apply IH.
Qed.

(** A text in which [p] begins nowhere adds no occurrence of [p]. *)
Lemma includes_neverStarts (p x rest : list ascii) :
  neverStarts p x = true -> includes (x ++ rest) p = includes rest p.
Proof.
  induction x as [|a x IH]; intros H; [reflexivity|].
  cbn [neverStarts] in H. apply andb_true_iff in H as [Hc H].
  cbn [app]. rewrite includes_cons, IH by exact H.
  destruct (startsWith p (a :: x ++ rest)) eqn:Es; [|reflexivity].
  apply (compat_startsWith p (a :: x) rest) in Es. rewrite Es in Hc. discriminate.
Qed.

Lemma neverStarts_tail (p : list ascii) (a : ascii) (x : list ascii) :
  neverStarts p (a :: x) = true -> neverStarts p x = true.
Proof. cbn. now intros [_ H]%andb_true_iff. Qed.

Lemma neverStarts_head (p : list ascii) (a : ascii) (x rest : list ascii) :
  neverStarts p (a :: x) = true -> startsWith (a :: x) (p ++ rest) = false.
Proof.
  cbn [neverStarts]. intros [Hc _]%andb_true_iff.
  destruct (startsWith (a :: x) (p ++ rest)) eqn:Es; [|reflexivity].
  apply (compat_startsWith (a :: x) p rest) in Es.
  assert (compat (a :: x) p = true).
  { clear Hc. revert Es. generalize (a :: x) as u. induction p as [|b p IH];
      intros [|c u] H; cbn in *; auto.
    apply andb_true_iff in H as [H1 H2]. rewrite Ascii.eqb_sym, H1. cbn. auto. }
  rewrite H in Hc. discriminate.
Qed.

Section FormatTokens.
Import CSSFontUpdater.

Lemma formatWoff2_plain (rpre m : list ascii) (g : nat -> list ascii) (post : list ascii) :
  getSubstitution (S (List.length formatWoff2)) 0 formatWoff2 rpre m g post = formatWoff2.
Proof. apply getSubstitution_plain; [apply no_dollar; reflexivity | lia]. Qed.

Lemma afterFormats_nil (rpre : list ascii) (skip : nat) : afterFormats rpre [] skip = [].
Proof.
  unfold afterFormats. destruct skip; [|reflexivity]. reflexivity.
Qed.

Lemma afterFormats_skip (rpre : list ascii) (c : ascii) (t : list ascii) (n : nat) :
  afterFormats rpre (c :: t) (S n) = afterFormats (c :: rpre) t n.
Proof. reflexivity. Qed.

Lemma afterFormats_cons (rpre : list ascii) (c : ascii) (t : list ascii) :
  afterFormats rpre (c :: t) 0 =
  match match_at true re_format (List.hd_error rpre) (c :: t) with
  | Some (O, _) => formatWoff2 ++ c :: afterFormats (c :: rpre) t 0
  | Some (S n, _) => formatWoff2 ++ afterFormats (c :: rpre) t n
  | None => c :: afterFormats (c :: rpre) t 0
  end.
Proof.
  unfold afterFormats. cbn [scan].
  destruct (match_at true re_format (List.hd_error rpre) (c :: t)) as [[[|n] cs]|];
    cbn [List.flat_map render]; rewrite ?formatWoff2_plain; reflexivity.
Qed.

(** A text in which the new token begins nowhere, and that begins the
    output, begins the input. *)
Lemma afterFormats_prefix (u s rpre : list ascii) :
  neverStarts formatWoff2 u = true ->
  startsWith u (afterFormats rpre s 0) = true -> startsWith u s = true.
Proof.
  revert u rpre; induction s as [|c t IH]; intros u rpre Hu Hs.
  - rewrite afterFormats_nil in Hs. exact Hs.
  - destruct u as [|x u]; [reflexivity|].
    rewrite afterFormats_cons in Hs.
    destruct (match_at true re_format (List.hd_error rpre) (c :: t)) as [[[|n] cs]|].
    + now rewrite (neverStarts_head _ _ _ _ Hu) in Hs.
    + now rewrite (neverStarts_head _ _ _ _ Hu) in Hs.
    + cbn in Hs |- *. apply andb_true_iff in Hs as [Hx Hs]. rewrite Hx. cbn.
      apply (IH u (c :: rpre)); [|exact Hs]. now apply neverStarts_tail in Hu.
Qed.
End FormatTokens.

Section TokensGone.
Import CSSFontUpdater.
Variable L : list ascii.
Hypothesis L_nonempty : L <> [].
Hypothesis new_not_in_tail : neverStarts formatWoff2 (List.tl L) = true.
Hypothesis L_not_in_new : neverStarts L formatWoff2 = true.
Hypothesis L_matched :
  forall p x, exists n cs, match_at true re_format p (L ++ x) = Some (S n, cs).

Lemma token_at_output_start (c : ascii) (t rpre : list ascii) :
  startsWith L (c :: afterFormats (c :: rpre) t 0) = true ->
  exists n cs, match_at true re_format (List.hd_error rpre) (c :: t) = Some (S n, cs).
Proof.
  intros Hs. destruct L as [|l0 u] eqn:EL; [congruence|]. cbn [List.tl] in *.
  cbn in Hs. apply andb_true_iff in Hs as [Hc Hs]. apply Ascii.eqb_eq in Hc as <-.
  apply afterFormats_prefix in Hs; [|exact new_not_in_tail].
  apply startsWith_split in Hs as (x & ->).
  exact (L_matched (List.hd_error rpre) x).
Qed.

(** After the replacement of the token pattern the token [L] occurs
    nowhere. *)
Lemma token_gone_after_formats (s rpre : list ascii) (skip : nat) :
  includes (afterFormats rpre s skip) L = false.
Proof.
  revert rpre skip; induction s as [|c t IH]; intros rpre skip.
  - rewrite afterFormats_nil. destruct L; [congruence | reflexivity].
  - destruct skip as [|n]; [|rewrite afterFormats_skip; apply IH].
    rewrite afterFormats_cons.
    destruct (match_at true re_format (List.hd_error rpre) (c :: t)) as [[[|n] cs]|] eqn:Em.
    + rewrite includes_neverStarts by exact L_not_in_new.
      rewrite includes_cons, IH, orb_false_r.
      destruct (startsWith L (c :: afterFormats (c :: rpre) t 0)) eqn:Es; [|reflexivity].
      apply token_at_output_start in Es as (n & cs' & E). congruence.
    + rewrite includes_neverStarts by exact L_not_in_new. apply IH.
    + rewrite includes_cons, IH, orb_false_r.
      destruct (startsWith L (c :: afterFormats (c :: rpre) t 0)) eqn:Es; [|reflexivity].
      apply token_at_output_start in Es as (n & cs' & E). congruence.
Qed.
End TokensGone.

Lemma legacy_token_checks (L : list ascii) :
  In L legacyTokens ->
  L <> [] /\
  neverStarts CSSFontUpdater.formatWoff2 (List.tl L) = true /\
  neverStarts L CSSFontUpdater.formatWoff2 = true /\
  neverStarts (hintText ++ str ";") L = true /\
  neverStarts L (hintText ++ str ";") = true /\
  (forall p x, exists n cs,
      match_at true CSSFontUpdater.re_format p (L ++ x) = Some (S n, cs)).
Proof.
  intros Hin. unfold legacyTokens in Hin. cbn [In] in Hin.
  repeat (destruct Hin as [<-|Hin]; [
    split; [discriminate|];
    split; [vm_compute; reflexivity|];
    split; [vm_compute; reflexivity|];
    split; [vm_compute; reflexivity|];
    split; [vm_compute; reflexivity|];
    intros p x; eexists _, _; vm_compute; reflexivity |]).
  destruct Hin.
Qed.

(** No legacy token is left by the replacement of the token pattern. *)
Lemma legacy_tokens_gone_after_formats (L s : list ascii) :
  In L legacyTokens ->
  includes (replaceString true true CSSFontUpdater.re_format 0
              CSSFontUpdater.formatWoff2 s) L = false.
Proof.
  intros Hin. destruct (legacy_token_checks L Hin) as (H1 & H2 & H3 & _ & _ & H4).
  exact (token_gone_after_formats L H1 H2 H3 H4 s [] 0).
Qed.

(** *** The format hints *)

Lemma hinted_refl (x : list ascii) : hinted x x.
Proof. induction x; constructor; auto. Qed.

Lemma hinted_app (x y x' y' : list ascii) :
  hinted x y -> hinted x' y' -> hinted (x ++ x') (y ++ y').
Proof.
  intros H H'. induction H as [|c x y H IH|w x y H IH]; cbn [app]; auto.
  - now constructor.
  - rewrite <- !app_assoc. cbn [app]. now constructor.
Qed.

Lemma hint_shape (y : list ascii) :
  hintText ++ ";"%char :: y = (hintText ++ str ";") ++ y.
Proof. now rewrite <- app_assoc. Qed.

(** A text in which the hint begins nowhere, and that begins the hinted
    text, begins the text before the hints. *)
Lemma hinted_prefix (u x y : list ascii) :
  neverStarts (hintText ++ str ";") u = true ->
  hinted x y -> startsWith u y = true -> startsWith u x = true.
Proof.
  intros Hu H. revert u Hu. induction H as [|c x y H IH|w x y H IH]; intros u Hu Hs.
  - exact Hs.
  - destruct u as [|a u]; [reflexivity|]. cbn in Hs |- *.
    apply andb_true_iff in Hs as [Ha Hs]. rewrite Ha. cbn.
    apply IH; [|exact Hs]. now apply neverStarts_tail in Hu.
  - destruct u as [|a u]; [reflexivity|].
    rewrite hint_shape in Hs. now rewrite (neverStarts_head _ _ _ _ Hu) in Hs.
Qed.

(** The hints bring no occurrence of a token in which the hint begins
    nowhere and that begins nowhere in the hint. *)
Lemma hinted_no_token (L x y : list ascii) :
  neverStarts (hintText ++ str ";") L = true ->
  neverStarts L (hintText ++ str ";") = true ->
  hinted x y -> includes x L = false -> includes y L = false.
Proof.
  intros H1 H2 H. induction H as [|c x y H IH|w x y H IH]; intros Hx.
  - exact Hx.
  - rewrite includes_cons in Hx |- *. apply orb_false_iff in Hx as [Hs Hx].
    rewrite (IH Hx), orb_false_r.
    destruct (startsWith L (c :: y)) eqn:Es; [|reflexivity].
    apply (hinted_prefix L (c :: x) (c :: y) H1) in Es; [congruence | now constructor].
  - rewrite hint_shape, includes_neverStarts by exact H2. apply IH.
    apply includes_app_false_r in Hx. rewrite includes_cons in Hx.
    now apply orb_false_iff in Hx as [_ Hx].
Qed.

Lemma semicolon_char (c : ascii) : sameChar true ";"%char c = true -> c = ";"%char.
Proof. all_chars c; intros; try discriminate; auto. Qed.

(** A match of the pattern of a url declaration, read back: the group, then
    some text, then the semicolon. *)
Lemma urlDeclaration_inv (pv : option ascii) (a f : list ascii)
    (cs : list (nat * (nat * nat))) :
  den true CSSFontUpdater.re_urlDeclaration pv a f cs ->
  exists g w, a = g ++ w ++ str ";" /\ groupText (a ++ f) cs 1 = g.
Proof.
  intros H. unfold CSSFontUpdater.re_urlDeclaration in H. cbn [seqs] in H.
  seq_inv H g w1 c1 c1' Hg.
  seq_inv H w w2 c2 c2' Hw.
  apply den_group_inv in Hg as (ci & -> & Hg).
  apply den_star_cls_inv in Hw as [-> _].
  apply den_chr_inv in H as (c & -> & -> & Hc). apply semicolon_char in Hc as ->.
  exists g, w. split; [reflexivity|].
  apply (groupText_spec _ [] g ((w ++ str ";") ++ f) _ 1 0 (List.length g));
    [assoc_eq | reflexivity | reflexivity | reflexivity].
Qed.

(** The callback on a font-face block at most puts the hint in front of a
    semicolon. *)
Lemma hintBlock_hinted (matched : list ascii) (groups : nat -> list ascii) :
  hinted matched (CSSFontUpdater.hintBlock matched groups).
Proof.
  unfold CSSFontUpdater.hintBlock.
  destruct (CSSFontUpdater.lacksHint matched (groups 1%nat)); [|apply hinted_refl].
  unfold replaceString.
  destruct (scan_first true CSSFontUpdater.re_urlDeclaration matched [])
    as [E|(pre & a & post & cs & E & D & Es)].
  - rewrite E, flat_map_Keep. apply hinted_refl.
  - rewrite Es, List.flat_map_app. cbn [List.flat_map render]. rewrite !flat_map_Keep.
    match goal with
    | |- context [getSubstitution ?n 1%nat ?t ?rp ?m ?gg ?p] =>
        change (getSubstitution n 1%nat t rp m gg p) with (gg 1%nat ++ hintText ++ str ";")
    end.
    apply urlDeclaration_inv in D as (g & w & -> & Hg). rewrite Hg.
    subst matched. apply hinted_app; [apply hinted_refl|].
    rewrite <- !app_assoc. apply hinted_app; [apply hinted_refl|].
    cbn [str list_ascii_of_string app]. apply hinted_hint, hinted_refl.
Qed.

Lemma hinted_pieces (pieces : list piece) :
  hinted (List.flat_map (render asItWas) pieces)
         (List.flat_map (render (fun _ m g _ => CSSFontUpdater.hintBlock m g)) pieces).
Proof.
  induction pieces as [|[c|rpre m g post] pieces IH]; cbn [List.flat_map render].
  - constructor.
  - now constructor.
  - apply hinted_app; [apply hintBlock_hinted | exact IH].
Qed.

(** After [updateFontFormats] no legacy token is left in the text. *)
Lemma legacy_tokens_gone (L content : list ascii) :
  In L legacyTokens ->
  includes (fst (CSSFontUpdater.updateFontFormats content)) L = false.
Proof.
  intros Hin. unfold CSSFontUpdater.updateFontFormats. cbn [fst]. unfold replaceWith.
  destruct (legacy_token_checks L Hin) as (_ & _ & _ & H1 & H2 & _).
  eapply (hinted_no_token L _ _ H1 H2); [apply hinted_pieces|].
  rewrite scan_input. cbn [List.skipn].
  now apply legacy_tokens_gone_after_formats.
Qed.

(** ** The font pass on style sheets *)

Lemma updatedCss_formats (content oldRef newRef : list ascii) :
  ~ In "$"%char newRef ->
  includes content oldRef = true \/ includes content newRef = true ->
  exists text,
    fst (CSSFontUpdater.updatedCss content oldRef newRef)
    = fst (CSSFontUpdater.updateFontFormats text).
Proof.
  intros Hd H. unfold CSSFontUpdater.updatedCss.
  destruct (includes content oldRef) eqn:Eo.
  - rewrite (replaceAll_includes_new oldRef newRef Hd content Eo).
    exists (replaceAll content oldRef newRef).
    now destruct (CSSFontUpdater.updateFontFormats _).
  - destruct H as [H|H]; [discriminate|]. rewrite H. exists content.
    now destruct (CSSFontUpdater.updateFontFormats _).
Qed.



(** The round trip of the specification on a font-face block. *)
Example font_round_trip_demo :
  cssAfterFont Demo.blockA Demo.oldRef Demo.newRef
  = js "@font-face { font-family: A; src: url(`../fonts/fontA.woff2`) format(`woff2`); }".
Proof. vm_compute. reflexivity. Qed.



